(** * GLab learning switch: a model of [switch.c] and its properties

    The development follows the layout of the C file: the data
    declarations, the machine the functions run on (globals, the bytes
    written to standard output, and the three ways a call can end),
    then [forward_to], [parse_frame], [handle_frame], [handle_control],
    [handle_mac] and [main], the second version of the file and the
    draft of the third source file, and last the properties.

    Conventions.
    - Integers of the C program are [Z]; bytes are [Z] in [0, 256).
    - A pointer is a symbolic address ([ptr]): the program compares
      addresses and tests them against [NULL], so addresses are part
      of the model.  Reading through [NULL], or outside the object a
      pointer designates, ends the call with [Fault].
    - [time(NULL)] is an input: [parse_frame] reads the clock twice
      and receives the two readings as arguments.
    - Diagnostics on standard error ([fprintf], [print]) are left out.
    - The storage behind [mappings] is a component of the state.  The
      file never assigns the pointer: in the globals [main] leaves it
      is null, which the model renders as storage of no slots, every
      access to a slot being outside any object.  The properties of a
      run are stated for the states a run goes through; those of the
      functions taken by themselves say so and take the array of
      [mappings_size] slots as given. *)

From Stdlib Require Import ZArith Lia Bool List Sorted.
From stdpp Require Import base tactics option list list_numbers sorting.

Local Open Scope Z_scope.

(** ** Data declarations *)

(** Modelled from the spec: [glab.h] is not among the sources.  A MAC
    address is [struct MacAddress { uint8_t mac[6]; }]: six bytes
    compared bytewise. *)
Definition MacAddress : Type := list Z.

Definition sizeof_MacAddress : Z := 6.

(** Modelled from the spec: [struct GLAB_MessageHeader] of [glab.h] is
    a 16-bit [size] followed by a 16-bit [type], both in network byte
    order: four bytes. *)
Definition sizeof_GLAB_MessageHeader : Z := 4.

(** [struct EthernetHeader], packed: 6 + 6 + 2 bytes. *)
Record EthernetHeader : Type := mkEthernetHeader {
  dst : MacAddress;
  src : MacAddress;
  tag : list Z
}.

Definition sizeof_EthernetHeader : Z := 14.

Module Interface.
(** [struct Interface]. *)
Record t : Type := mk {
  mac : MacAddress;
  ifc_num : Z
}.
End Interface.

Module Mapping.
(** [struct Mapping]. *)
Record t : Type := mk {
  mac : MacAddress;
  ifc_num : Z;
  timeRemembered : Z
}.
End Mapping.

(** [static unsigned int mappings_size = 10;], never assigned. *)
Definition mappings_size : Z := 10.

(** The globals of the file. *)
Record state : Type := mkState {
  num_ifc : Z;
  gifc : list Interface.t;
  mappings : list Mapping.t;
  mappings_next_empty : Z
}.

(** The broadcast address FF:FF:FF:FF:FF:FF. *)
Definition broadcast : MacAddress := [255; 255; 255; 255; 255; 255].

(** ** Addresses *)

Inductive ptr : Type :=
| NULL
| Wild (address : Z)        (* an integer other than 0 used as a pointer *)
| Eh_dst                    (* &eh.dst, in the frame of parse_frame *)
| Eh_src                    (* &eh.src *)
| Destination_if            (* &destination_if, a local uint16_t *)
| Gifc (a : Z)              (* &gifc[a] *)
| Gifc_ifc_num (a : Z)      (* &gifc[a].ifc_num *)
| Mappings (i : Z)          (* &mappings[i] *)
| Mappings_mac (i : Z).     (* &mappings[i].mac *)

(** [p == NULL]. *)
Definition is_null (p : ptr) : bool :=
  match p with NULL => true | _ => false end.

(** [p == q] for the pointers the program compares. *)
Definition ptr_eqb (p q : ptr) : bool :=
  match p, q with
  | NULL, NULL => true
  | Wild a, Wild b => a =? b
  | Eh_dst, Eh_dst => true
  | Eh_src, Eh_src => true
  | Destination_if, Destination_if => true
  | Gifc a, Gifc b => a =? b
  | Gifc_ifc_num a, Gifc_ifc_num b => a =? b
  | Mappings i, Mappings j => i =? j
  | Mappings_mac i, Mappings_mac j => i =? j
  | _, _ => false
  end.

(** [&p->ifc_num] for [p] of type [struct Interface *]. *)
Definition addr_ifc_num (p : ptr) : ptr :=
  match p with
  | Gifc a => Gifc_ifc_num a
  | _ => p
  end.

(** An [int] passed where a pointer is expected. *)
Definition int_to_ptr (z : Z) : ptr :=
  if z =? 0 then NULL else Wild z.

(** ** Arrays indexed by C integers *)

Definition at_index {A : Type} (l : list A) (i : Z) : option A :=
  if (0 <=? i) then l !! Z.to_nat i else None.

Definition set_index {A : Type} (l : list A) (i : Z) (x : A) : option (list A) :=
  if (0 <=? i) && (i <? Z.of_nat (length l))
  then Some (<[Z.to_nat i := x]> l)
  else None.

(** ** The machine: globals, standard output, and how a call ends *)

Inductive outcome (A : Type) : Type :=
| Done (a : A)       (* the call returns *)
| Abort              (* abort() *)
| Fault.             (* access through NULL or outside an object *)
Arguments Done {A} a.
Arguments Abort {A}.
Arguments Fault {A}.

(** A computation runs from the globals and yields how it ended, the
    globals at that point, and the buffers passed to [write_all] on
    standard output, oldest first. *)
Definition M (A : Type) : Type := state -> outcome A * state * list (list Z).

Definition ret {A : Type} (a : A) : M A := fun s => (Done a, s, []).

Definition bind {A B : Type} (c : M A) (k : A -> M B) : M B :=
  fun s =>
    match c s with
    | (Done a, s1, out1) =>
        match k a s1 with
        | (r, s2, out2) => (r, s2, out1 ++ out2)
        end
    | (Abort, s1, out1) => (Abort, s1, out1)
    | (Fault, s1, out1) => (Fault, s1, out1)
    end.

Declare Scope machine_scope.
Delimit Scope machine_scope with machine.
Notation "x <- c ;; k" := (bind c (fun x => k))
  (at level 100, c at next level, right associativity) : machine_scope.
Notation "c ;;; k" := (bind c (fun _ => k))
  (at level 100, right associativity) : machine_scope.
Local Open Scope machine_scope.

Definition abort {A : Type} : M A := fun s => (Abort, s, []).
Definition fault {A : Type} : M A := fun s => (Fault, s, []).
Definition get : M state := fun s => (Done s, s, []).
Definition put (s : state) : M unit := fun _ => (Done tt, s, []).
Definition write_all (iob : list Z) : M unit := fun s => (Done tt, s, [iob]).

Definition load {A : Type} (o : option A) : M A :=
  match o with Some a => ret a | None => fault end.

(** Reading and writing the globals. *)

Definition load_mapping (i : Z) : M Mapping.t :=
  s <- get ;; load (at_index (mappings s) i).

Definition store_mapping (i : Z) (f : Mapping.t -> Mapping.t) : M unit :=
  s <- get ;;
  m <- load (at_index (mappings s) i) ;;
  t <- load (set_index (mappings s) i (f m)) ;;
  put (mkState (num_ifc s) (gifc s) t (mappings_next_empty s)).

Definition set_mappings_next_empty (n : Z) : M unit :=
  s <- get ;; put (mkState (num_ifc s) (gifc s) (mappings s) n).

(** [*p] for [p] of type [const struct MacAddress *]; [eh] is the
    local header of [parse_frame]. *)
Definition load_mac (eh : EthernetHeader) (p : ptr) : M MacAddress :=
  match p with
  | Eh_dst => ret (dst eh)
  | Eh_src => ret (src eh)
  | Mappings_mac i => m <- load_mapping i ;; ret (Mapping.mac m)
  | _ => fault
  end.

(** [p->ifc_num] for [p] of type [struct Interface *].  The member
    lies six bytes into the object: behind [&destination_if], a
    two-byte local, that is outside the object. *)
Definition load_ifc_num (p : ptr) : M Z :=
  match p with
  | Gifc a => s <- get ;; i <- load (at_index (gifc s) a) ;; ret (Interface.ifc_num i)
  | _ => fault
  end.

(** ** Library functions *)

(** [memcmp] over two byte strings of the same length: zero when they
    agree, else the difference of the first bytes that differ. *)
Fixpoint memcmp (a b : list Z) : Z :=
  match a, b with
  | x :: a', y :: b' => if x =? y then memcmp a' b' else x - y
  | _, _ => 0
  end.

(** [difftime (t1, t0)]: the difference, as a number. *)
Definition difftime (t1 t0 : Z) : Z := t1 - t0.

(** The two bytes, in memory order, of [htons (x)] for [x] converted
    to [uint16_t]. *)
Definition htons (x : Z) : list Z :=
  [Z.shiftr (Z.land x 65535) 8; Z.land x 255].

(** ** [maccmp] (first draft: the result of [memcmp]) *)

Definition maccmp (eh : EthernetHeader) (mac1 mac2 : ptr) : M Z :=
  m1 <- load_mac eh mac1 ;;
  m2 <- load_mac eh mac2 ;;
  ret (memcmp (take (Z.to_nat sizeof_MacAddress) m1)
              (take (Z.to_nat sizeof_MacAddress) m2)).

(** ** [forward_to] *)

Definition forward_to (dst_ifc : ptr) (frame : list Z) : M unit :=
  let sizeof_iob := Z.of_nat (length frame) + sizeof_GLAB_MessageHeader in
  n <- load_ifc_num dst_ifc ;;
  write_all (htons sizeof_iob ++ htons n ++ frame).

(** ** [parse_frame] *)

(** The loop that sends [frame] to all interfaces but [ifc]; [n]
    iterations remain and [a] is the loop variable. *)
Fixpoint flood_loop (ifc : ptr) (frame : list Z) (n : nat) (a : Z) : M unit :=
  match n with
  | O => ret tt
  | S n' =>
      (if negb (ptr_eqb (addr_ifc_num (Gifc a)) (addr_ifc_num ifc))
       then forward_to (Gifc a) frame
       else ret tt) ;;;
      flood_loop ifc frame n' (a + 1)
  end.

Definition flood (ifc : ptr) (frame : list Z) : M unit :=
  s <- get ;; flood_loop ifc frame (Z.to_nat (num_ifc s)) 0.

(** [memcpy (&eh, frame, sizeof (eh))]. *)
Definition read_header (frame : list Z) : EthernetHeader :=
  mkEthernetHeader (take 6 frame) (take 6 (drop 6 frame)) (take 2 (drop 12 frame)).

(** Step 1, the loop over the table.  The result is [(isNew,
    oldestIndex)]; [oldest] and [oldestIndex] are the running values of
    the variables of the same name. *)
Fixpoint learn_loop (ifc : ptr) (eh : EthernetHeader) (current : Z)
    (n : nat) (i : Z) (oldest : Z) (oldestIndex : Z) : M (Z * Z) :=
  match n with
  | O => ret (1, oldestIndex)
  | S n' =>
      let older :=
        m <- load_mapping i ;;
        if difftime (Mapping.timeRemembered m) oldest <? 0
        then learn_loop ifc eh current n' (i + 1) (Mapping.timeRemembered m) i
        else learn_loop ifc eh current n' (i + 1) oldest oldestIndex in
      if is_null (Mappings i) || is_null (Mappings_mac i)
      then
        c <- maccmp eh (Mappings_mac i) Eh_src ;;
        if negb (c =? 0)
        then
          k <- load_ifc_num ifc ;;
          store_mapping i (fun m => Mapping.mk (Mapping.mac m) k (Mapping.timeRemembered m)) ;;;
          store_mapping i (fun m => Mapping.mk (Mapping.mac m) (Mapping.ifc_num m) current) ;;;
          ret (0, oldestIndex)
        else older
      else older
  end.

(** Step 1: update the table with the sender. *)
Definition learn (ifc : ptr) (eh : EthernetHeader) (current oldest : Z) : M unit :=
  r <- learn_loop ifc eh current (Z.to_nat mappings_size) 0 oldest 0 ;;
  if fst r =? 1
  then
    s <- get ;;
    index <- (if mappings_next_empty s <? mappings_size
              then set_mappings_next_empty (mappings_next_empty s + 1) ;;;
                   ret (mappings_next_empty s)
              else ret (snd r)) ;;
    store_mapping index (fun m => Mapping.mk (Mapping.mac m) (Mapping.ifc_num m) current) ;;;
    k <- load_ifc_num ifc ;;
    store_mapping index (fun m => Mapping.mk (Mapping.mac m) k (Mapping.timeRemembered m)) ;;;
    store_mapping index (fun m => Mapping.mk (src eh) (Mapping.ifc_num m) (Mapping.timeRemembered m))
  else ret tt.

(** Step 2, the loop over the table: [Some destination_if] when
    [found_dest_mac] is set.  The second argument of [maccmp] is the
    value of the comparison [&(eh.dst) == 0]. *)
Fixpoint find_dest_loop (eh : EthernetHeader) (n : nat) (i : Z) : M (option Z) :=
  match n with
  | O => ret None
  | S n' =>
      c <- maccmp eh (Mappings_mac i) (int_to_ptr (Z.b2z (is_null Eh_dst))) ;;
      if negb (c =? 0)
      then m <- load_mapping i ;; ret (Some (Mapping.ifc_num m))
      else find_dest_loop eh n' (i + 1)
  end.

Definition find_dest (eh : EthernetHeader) : M (option Z) :=
  find_dest_loop eh (Z.to_nat mappings_size) 0.

Definition parse_frame (ifc : ptr) (frame : list Z) (current oldest : Z) : M unit :=
  if Z.of_nat (length frame) <? sizeof_EthernetHeader
  then ret tt
  else
    let eh := read_header frame in
    (if is_null Eh_dst then flood ifc frame else ret tt) ;;;
    learn ifc eh current oldest ;;;
    d <- find_dest eh ;;
    match d with
    | Some _ => forward_to Destination_if frame
    | None => flood ifc frame
    end.

(** ** [handle_frame], [handle_control], [handle_mac], [main] *)

Definition handle_frame (interface : Z) (frame : list Z) (current oldest : Z) : M unit :=
  s <- get ;;
  if num_ifc s <? interface
  then abort
  else parse_frame (Gifc (interface - 1)) frame current oldest.

(** The argument of [%s]: the bytes before the first NUL. *)
Fixpoint c_string (buf : list Z) : list Z :=
  match buf with
  | [] => []
  | b :: buf' => if b =? 0 then [] else b :: c_string buf'
  end.

(** [cmd] is the caller's buffer; the result is the buffer after the
    call and the text handed to [print].  [cmd_len - 1] is computed in
    [size_t]. *)
Definition handle_control (cmd : list Z) (cmd_len : Z) : M (list Z * list Z) :=
  cmd' <- load (set_index cmd ((cmd_len - 1) mod 2 ^ 64) 0) ;;
  ret (cmd', c_string cmd').

Definition handle_mac (ifc_num : Z) (mac : MacAddress) : M unit :=
  s <- get ;;
  if num_ifc s <? ifc_num
  then abort
  else
    i <- load (at_index (gifc s) (ifc_num - 1)) ;;
    g <- load (set_index (gifc s) (ifc_num - 1) (Interface.mk mac (Interface.ifc_num i))) ;;
    put (mkState (num_ifc s) g (mappings s) (mappings_next_empty s)).

(** The globals as [main] leaves them before [loop ()], for [n]
    interfaces on the command line; [table] is the storage behind
    [mappings]. *)
Definition main_state (n : nat) (table : list Mapping.t) : state :=
  mkState (Z.of_nat n)
          (map (fun i => Interface.mk [0; 0; 0; 0; 0; 0] (Z.of_nat i mod 65536)) (seq 1 n))
          table
          0.

(** The second version of the file kept in [switch.c].  Only
    [parse_frame] differs: it fills a local [struct Mapping] that is
    never saved and sends the frame to all interfaces but the one it
    came from. *)
Module Hub.

Definition parse_frame (ifc : ptr) (frame : list Z) : M unit :=
  if Z.of_nat (length frame) <? sizeof_EthernetHeader
  then ret tt
  else
    _ <- load_ifc_num ifc ;;
    flood ifc frame.

Definition handle_frame (interface : Z) (frame : list Z) : M unit :=
  s <- get ;;
  if num_ifc s <? interface
  then abort
  else parse_frame (Gifc (interface - 1)) frame.

End Hub.

(** ** Reading the table and the output *)

(** The entries of the table are the slots below
    [mappings_next_empty]. *)
Definition entries (s : state) : list Mapping.t :=
  take (Z.to_nat (mappings_next_empty s)) (mappings s).

(** The lookup of the specification, read off the table of the code:
    the interface of the first entry whose MAC is [m].  The file has
    no function of its own for it; its scan is step 2 of
    [parse_frame]. *)
Definition table_lookup (s : state) (m : MacAddress) : option Z :=
  Mapping.ifc_num <$> find (fun e => bool_decide (Mapping.mac e = m)) (entries s).

(** The fields of a message on standard output: [size], [type], and
    the bytes after the header. *)
Definition message_fields (msg : list Z) : option (Z * Z * list Z) :=
  match msg with
  | s1 :: s0 :: t1 :: t0 :: payload => Some (256 * s1 + s0, 256 * t1 + t0, payload)
  | _ => None
  end.

(** The message [forward_to] builds for the interface numbered [k]. *)
Definition message (frame : list Z) (k : Z) : list Z :=
  htons (Z.of_nat (length frame) + sizeof_GLAB_MessageHeader) ++ htons k ++ frame.

(** The interface numbers other than [interface], in increasing
    order. *)
Definition targets (s : state) (interface : Z) : list Z :=
  filter (fun k => k <> interface) (seqZ 1 (num_ifc s)).

(** The running minimum of step 1 as a function of the slots scanned:
    [l] holds the slots from index [i] on. *)
Fixpoint oldest_scan (l : list Mapping.t) (i oldest oldestIndex : Z) : Z :=
  match l with
  | [] => oldestIndex
  | m :: l' =>
      if difftime (Mapping.timeRemembered m) oldest <? 0
      then oldest_scan l' (i + 1) (Mapping.timeRemembered m) i
      else oldest_scan l' (i + 1) oldest oldestIndex
  end.

(** The slot step 1 writes for a sender it takes as new. *)
Definition learn_index (s : state) (oldest : Z) : Z :=
  if mappings_next_empty s <? mappings_size
  then mappings_next_empty s
  else oldest_scan (mappings s) 0 oldest 0.

(** ** Well-formed globals *)

(** The table storage has [mappings_size] slots and the fill mark is
    within it. *)
Definition table_allocated (s : state) : Prop :=
  length (mappings s) = Z.to_nat mappings_size /\
  0 <= mappings_next_empty s <= mappings_size.

(** [gifc] has [num_ifc] elements, numbered from 1 as [main] numbers
    them. *)
Definition interfaces_numbered (s : state) : Prop :=
  Z.of_nat (length (gifc s)) = num_ifc s /\
  num_ifc s < 65536 /\
  forall (a : nat) g, gifc s !! a = Some g -> Interface.ifc_num g = Z.of_nat a + 1.

(** [v] is the first slot of [l] with the least [timeRemembered]. *)
Definition first_oldest (l : list Mapping.t) (v : Z) : Prop :=
  0 <= v /\
  exists m, l !! Z.to_nat v = Some m /\
    (forall (j : nat) m', l !! j = Some m' ->
       Mapping.timeRemembered m <= Mapping.timeRemembered m') /\
    (forall (j : nat) m', (j < Z.to_nat v)%nat -> l !! j = Some m' ->
       Mapping.timeRemembered m < Mapping.timeRemembered m').

(** A sender seen by step 1: its MAC, the interface number it arrived
    on, and the two clock readings of that call. *)
Record arrival : Type := mkArrival {
  a_mac : MacAddress;
  a_interface : Z;
  a_current : Z;
  a_oldest : Z
}.

(** The entry step 1 records for an arrival. *)
Definition entry_of (e : arrival) : Mapping.t :=
  Mapping.mk (a_mac e) (a_interface e) (a_current e).

(** The globals after step 1 has recorded [mac] at interface number
    [k] and time [current] in slot [index]. *)
Definition learned (s : state) (index : Z) (mac : MacAddress) (k current : Z) : state :=
  mkState (num_ifc s) (gifc s)
          (<[Z.to_nat index := Mapping.mk mac k current]> (mappings s))
          (if mappings_next_empty s <? mappings_size
           then mappings_next_empty s + 1
           else mappings_next_empty s).

(** What the scan of step 1 knows after the slots [P]: either no slot
    was older than the clock reading [old], or [oldestIndex] is the
    first slot of [P] with the least time. *)
Definition scan_inv (old : Z) (P : list Mapping.t) (o oi : Z) : Prop :=
  (o = old /\ oi = 0 /\ Forall (fun m => old <= Mapping.timeRemembered m) P) \/
  (o < old /\ 0 <= oi /\
   exists m, P !! Z.to_nat oi = Some m /\ Mapping.timeRemembered m = o /\
     (forall (j : nat) m', P !! j = Some m' -> o <= Mapping.timeRemembered m') /\
     (forall (j : nat) m', (j < Z.to_nat oi)%nat -> P !! j = Some m' ->
        o < Mapping.timeRemembered m')).

(** A computation that writes nothing and does not abort. *)
Definition silent {A : Type} (c : M A) : Prop :=
  forall s, (c s).2 = [] /\ (c s).1.1 <> Abort.

(** ** Concrete inputs *)

Module Sample.

Definition AA : MacAddress := [170; 0; 0; 0; 0; 1].
Definition BB : MacAddress := [187; 0; 0; 0; 0; 2].

(** A frame with destination [d], sender [m] and three bytes of
    payload. *)
Definition frame (d m : MacAddress) : list Z := d ++ m ++ [8; 0] ++ [1; 2; 3].

(** Ten bytes: less than a header. *)
Definition short_frame : list Z := [1; 2; 3; 4; 5; 6; 7; 8; 9; 10].

Definition free_slot : Mapping.t := Mapping.mk [0; 0; 0; 0; 0; 0] 0 0.

(** Three interfaces and an empty table. *)
Definition s0 : state := main_state 3 (replicate 10 free_slot).

(** Three interfaces; the table holds one entry, [m] at interface
    number [k], recorded at time [t]. *)
Definition s1 (m : MacAddress) (k t : Z) : state :=
  mkState 3 (gifc s0) (Mapping.mk m k t :: replicate 9 free_slot) 1.

(** The arrival numbered [k]: a MAC of its own, interfaces in
    rotation, one second after the arrival before it. *)
Definition station (k : Z) : arrival :=
  mkArrival [2; 0; 0; 0; 0; k] (1 + k mod 3) (100 + k) (100 + k).

Definition stations : list arrival := map station [1; 2; 3; 4; 5; 6; 7; 8; 9].

(** Three interfaces and a full table: the arrivals 0 to 9. *)
Definition full : state :=
  mkState 3 (gifc s0) (map entry_of (station 0 :: stations)) 10.

(** Three interfaces; the table holds [AA] at interface 1 and [BB] at
    interface 3, in slots 0 and 1. *)
Definition s2 : state :=
  mkState 3 (gifc s0)
          (Mapping.mk AA 1 100 :: Mapping.mk BB 3 50 :: replicate 8 free_slot) 2.

End Sample.

(** ** The draft of the third source file

    The same program at an earlier stage: [forward_to], [handle_frame],
    [handle_control] and [handle_mac] read as above; [maccmp] tests for
    equality, and [parse_frame] finds sender, destination and oldest
    slot in one loop.  Its table is [macToIfc], of [macToIfc_size]
    slots of [struct MacToIfc] (a MAC, an interface number, a time);
    the model keeps it in the [mappings] component of the globals, the
    time being the member [timeStamp].  The storage is taken as given,
    as for [mappings]. *)
Module Draft.

(** [#define macToIfc_size 10]. *)
Definition macToIfc_size : Z := 10.

(** The member [timeStamp] of a slot. *)
Definition timeStamp (m : Mapping.t) : Z := Mapping.timeRemembered m.

(** [int invalidIndex = -1;]. *)
Definition invalidIndex : Z := -1.

(** [maccmp]: [memcmp (...) == 0]. *)
Definition maccmp (eh : EthernetHeader) (mac1 mac2 : ptr) : M bool :=
  m1 <- load_mac eh mac1 ;;
  m2 <- load_mac eh mac2 ;;
  ret (memcmp (take (Z.to_nat sizeof_MacAddress) m1)
              (take (Z.to_nat sizeof_MacAddress) m2) =? 0).

(** Step 1, the loop.  The arguments after [i] are the running values
    of [oldestIndex], [srcIndex] and [dstIndex], and so is the
    result.  [eh.src.mac] and [eh.dst.mac] are the addresses of
    [eh.src] and [eh.dst]. *)
Fixpoint scan (eh : EthernetHeader) (n : nat) (i : Z)
    (oldestIndex srcIndex dstIndex : Z) : M (Z * Z * Z) :=
  match n with
  | O => ret (oldestIndex, srcIndex, dstIndex)
  | S n' =>
      os <- (if srcIndex =? invalidIndex
             then
               b <- maccmp eh (Mappings_mac i) Eh_src ;;
               if b
               then ret (oldestIndex, i)
               else
                 m <- load_mapping i ;;
                 o <- load_mapping oldestIndex ;;
                 if difftime (timeStamp m) (timeStamp o) <? 0
                 then ret (i, srcIndex)
                 else ret (oldestIndex, srcIndex)
             else ret (oldestIndex, srcIndex)) ;;
      d <- (if dstIndex =? invalidIndex
            then
              b <- maccmp eh (Mappings_mac i) Eh_dst ;;
              if b then ret i else ret dstIndex
            else ret dstIndex) ;;
      if negb (snd os =? invalidIndex) && negb (d =? invalidIndex)
      then ret (fst os, snd os, d)
      else scan eh n' (i + 1) (fst os) (snd os) d
  end.

(** Step 2: the two stores into the slot of the sender, or into the
    oldest slot. *)
Definition save (ifc : ptr) (index : Z) (now : Z) : M unit :=
  k <- load_ifc_num ifc ;;
  store_mapping index (fun m => Mapping.mk (Mapping.mac m) k (Mapping.timeRemembered m)) ;;;
  store_mapping index (fun m => Mapping.mk (Mapping.mac m) (Mapping.ifc_num m) now).

(** [forward_to (&macToIfc[i], ...)]: the slot is read as a [struct
    Interface]; both structures begin with the MAC and the interface
    number, so [dst->ifc_num] is the number held in the slot. *)
Definition forward_to_slot (i : Z) (frame : list Z) : M unit :=
  let sizeof_iob := Z.of_nat (length frame) + sizeof_GLAB_MessageHeader in
  m <- load_mapping i ;;
  write_all (htons sizeof_iob ++ htons (Mapping.ifc_num m) ++ frame).

Definition parse_frame (ifc : ptr) (frame : list Z) (now : Z) : M unit :=
  if Z.of_nat (length frame) <? sizeof_EthernetHeader
  then ret tt
  else
    let eh := read_header frame in
    r <- scan eh (Z.to_nat macToIfc_size) 0 invalidIndex invalidIndex invalidIndex ;;
    let oldestIndex := fst (fst r) in
    let srcIndex := snd (fst r) in
    let dstIndex := snd r in
    (if negb (srcIndex =? invalidIndex)
     then save ifc srcIndex now
     else save ifc oldestIndex now) ;;;
    if negb (dstIndex =? invalidIndex)
    then forward_to_slot dstIndex frame
    else flood ifc frame.

Definition handle_frame (interface : Z) (frame : list Z) (now : Z) : M unit :=
  s <- get ;;
  if num_ifc s <? interface
  then abort
  else parse_frame (Gifc (interface - 1)) frame now.

End Draft.

(** ** Sequences of calls and relations between globals *)

(** [handle_mac] for a list of announcements, in order. *)
Fixpoint announce_all (l : list (Z * MacAddress)) : M unit :=
  match l with
  | [] => ret tt
  | (k, mac) :: l' => handle_mac k mac ;;; announce_all l'
  end.

(** However the computation ends, the globals it leaves are related by
    [R] to those it started from. *)
Definition keeps (R : state -> state -> Prop) {A : Type} (c : M A) : Prop :=
  forall s, R s (c s).1.2.

(** The interfaces are as before. *)
Definition same_interfaces (s s' : state) : Prop :=
  num_ifc s' = num_ifc s /\ gifc s' = gifc s.

(** The interfaces are as before, and so is the MAC of every slot of
    the table. *)
Definition same_keys (s s' : state) : Prop :=
  same_interfaces s s' /\
  map Mapping.mac (mappings s') = map Mapping.mac (mappings s).

(** The interfaces are as before and the table has as many slots. *)
Definition same_table_size (s s' : state) : Prop :=
  same_interfaces s s' /\ length (mappings s') = length (mappings s).

(** The slots from [i] up to [j] hold six-byte MACs other than
    [mac]. *)
Definition others_between (s : state) (mac : MacAddress) (i j : Z) : Prop :=
  forall k, i <= k < j ->
    exists m, at_index (mappings s) k = Some m /\
      length (Mapping.mac m) = 6%nat /\ Mapping.mac m <> mac.

(** The globals with the MAC of interface [k] set to [mac]. *)
Definition announced (s : state) (k : Z) (mac : MacAddress) : state :=
  mkState (num_ifc s)
          (match at_index (gifc s) (k - 1) with
           | Some g => <[Z.to_nat (k - 1) := Interface.mk mac (Interface.ifc_num g)]> (gifc s)
           | None => gifc s
           end)
          (mappings s) (mappings_next_empty s).

(** ** The states of a run *)

(** The globals when [main] calls [loop ()], for [n] interfaces:
    [mappings] was never assigned.  A null table is rendered as
    storage of no slots: the first access to a slot ends the call.
    (In the source that access is the comparison of line 178, the
    test of line 176 being true of a null base for [i = 0]; in the
    model it is the read of the time of slot 0.  Either way step 1
    ends at its first access, before any store.) *)
Definition start_state (n : nat) : state := main_state n [].

(** The globals a run of the first version goes through: those at the
    start, and those left by a call of a handler that returns.  A call
    that aborts or faults ends the run. *)
Inductive reachable : state -> Prop :=
| reachable_start (n : nat) : reachable (start_state n)
| reachable_frame s interface frame current oldest s' out :
    reachable s ->
    handle_frame interface frame current oldest s = (Done tt, s', out) ->
    reachable s'
| reachable_mac s ifc_num mac s' out :
    reachable s ->
    handle_mac ifc_num mac s = (Done tt, s', out) ->
    reachable s'
| reachable_control s cmd cmd_len v s' out :
    reachable s ->
    handle_control cmd cmd_len s = (Done v, s', out) ->
    reachable s'.


(** * Properties *)

(** ** Arrays *)

Lemma at_index_Some {A : Type} (l : list A) (i : Z) (x : A) :
  at_index l i = Some x <-> 0 <= i /\ l !! Z.to_nat i = Some x.
Proof.
  unfold at_index. destruct (Z.leb_spec 0 i); split; try tauto; try lia.
  intros H0. discriminate.
Qed.

Lemma at_index_nat {A : Type} (l : list A) (n : nat) :
  at_index l (Z.of_nat n) = l !! n.
Proof.
  unfold at_index. destruct (Z.leb_spec 0 (Z.of_nat n)); [|lia].
  now rewrite Nat2Z.id.
Qed.

Lemma set_index_Some {A : Type} (l : list A) (i : Z) (x : A) :
  0 <= i < Z.of_nat (length l) ->
  set_index l i x = Some (<[Z.to_nat i := x]> l).
Proof.
  intros H. unfold set_index.
  destruct (Z.leb_spec 0 i); [|lia].
  destruct (Z.ltb_spec i (Z.of_nat (length l))); [reflexivity|lia].
Qed.

Lemma set_index_None {A : Type} (l : list A) (i : Z) (x : A) :
  ~ (0 <= i < Z.of_nat (length l)) -> set_index l i x = None.
Proof.
  intros H. unfold set_index.
  destruct (Z.leb_spec 0 i); [|reflexivity].
  destruct (Z.ltb_spec i (Z.of_nat (length l))); [lia|reflexivity].
Qed.

(** ** Running the machine *)

Lemma bind_Done {A B : Type} (c : M A) (k : A -> M B) s a s1 :
  c s = (Done a, s1, []) -> bind c k s = k a s1.
Proof.
  intros H. unfold bind. rewrite H. destruct (k a s1) as [[r s2] out2]. reflexivity.
Qed.

Lemma bind_Fault {A B : Type} (c : M A) (k : A -> M B) s s1 out :
  c s = (Fault, s1, out) -> bind c k s = (Fault, s1, out).
Proof. intros H. unfold bind. now rewrite H. Qed.

Lemma load_mapping_run s i m :
  at_index (mappings s) i = Some m -> load_mapping i s = (Done m, s, []).
Proof. intros H. unfold load_mapping, bind, get, load. rewrite H. reflexivity. Qed.

Lemma load_mapping_fault s i :
  at_index (mappings s) i = None -> load_mapping i s = (Fault, s, []).
Proof. intros H. unfold load_mapping, bind, get, load. rewrite H. reflexivity. Qed.

Lemma store_mapping_run s i f m :
  0 <= i -> mappings s !! Z.to_nat i = Some m ->
  store_mapping i f s =
    (Done tt,
     mkState (num_ifc s) (gifc s) (<[Z.to_nat i := f m]> (mappings s)) (mappings_next_empty s),
     []).
Proof.
  intros Hi Hm. unfold store_mapping, bind, get, load.
  rewrite (proj2 (at_index_Some _ _ _) (conj Hi Hm)). cbn.
  rewrite set_index_Some; [reflexivity|].
  apply lookup_lt_Some in Hm. lia.
Qed.

Lemma load_ifc_num_run s a g :
  at_index (gifc s) a = Some g -> load_ifc_num (Gifc a) s = (Done (Interface.ifc_num g), s, []).
Proof. intros H. unfold load_ifc_num, bind, get, load. rewrite H. reflexivity. Qed.

(** Step 1 never finds the sender: the test that guards the
    comparison is on addresses of slots, which are not null.  The
    loop leaves the globals alone and yields [isNew = 1]. *)
Lemma learn_loop_run ifc eh current n :
  forall i oldest oldestIndex s,
    0 <= i -> (Z.to_nat i + n <= length (mappings s))%nat ->
    learn_loop ifc eh current n i oldest oldestIndex s =
      (Done (1, oldest_scan (take n (drop (Z.to_nat i) (mappings s))) i oldest oldestIndex),
       s, []).
Proof.
  induction n as [|n IH]; intros i oldest oldestIndex s Hi Hlen.
  - reflexivity.
  - destruct (lookup_lt_is_Some_2 (mappings s) (Z.to_nat i)) as [m Hm]; [lia|].
    cbn [learn_loop is_null orb].
    rewrite (bind_Done _ _ s m s (load_mapping_run s i m (proj2 (at_index_Some _ _ _) (conj Hi Hm)))).
    rewrite (drop_S _ _ _ Hm). cbn [take oldest_scan].
    replace (S (Z.to_nat i)) with (Z.to_nat (i + 1)) by lia.
    destruct (difftime (Mapping.timeRemembered m) oldest <? 0);
      apply IH; lia.
Qed.

Lemma oldest_scan_range l :
  forall i oldest oldestIndex lo,
    lo <= oldestIndex < i ->
    lo <= oldest_scan l i oldest oldestIndex < i + Z.of_nat (length l).
Proof.
  induction l as [|m l IH]; intros i oldest oldestIndex lo H; cbn [oldest_scan length].
  - lia.
  - destruct (difftime (Mapping.timeRemembered m) oldest <? 0).
    + specialize (IH (i + 1) (Mapping.timeRemembered m) i i). lia.
    + specialize (IH (i + 1) oldest oldestIndex lo). lia.
Qed.

(** The victim of a non-empty table is one of its slots. *)
Lemma oldest_scan_in_table l oldest :
  l <> [] -> 0 <= oldest_scan l 0 oldest 0 < Z.of_nat (length l).
Proof.
  destruct l as [|m l]; [congruence|]. intros _. cbn [oldest_scan length].
  destruct (difftime (Mapping.timeRemembered m) oldest <? 0).
  - pose proof (oldest_scan_range l (0 + 1) (Mapping.timeRemembered m) 0 0). lia.
  - pose proof (oldest_scan_range l (0 + 1) oldest 0 0). lia.
Qed.

Lemma learn_index_in_table s oldest :
  table_allocated s -> 0 <= learn_index s oldest < mappings_size.
Proof.
  intros [Hlen Hne]. unfold learn_index.
  destruct (Z.ltb_spec (mappings_next_empty s) mappings_size); [lia|].
  pose proof (oldest_scan_in_table (mappings s) oldest) as H0.
  rewrite Hlen in H0. unfold mappings_size in *.
  apply H0. intros E. rewrite E in Hlen. discriminate.
Qed.

(** The three stores that record the sender in slot [index]. *)
Lemma record_run s a g index m sender current :
  0 <= index ->
  mappings s !! Z.to_nat index = Some m ->
  at_index (gifc s) a = Some g ->
  (store_mapping index
     (fun m => Mapping.mk (Mapping.mac m) (Mapping.ifc_num m) current) ;;;
   k <- load_ifc_num (Gifc a) ;;
   store_mapping index
     (fun m => Mapping.mk (Mapping.mac m) k (Mapping.timeRemembered m)) ;;;
   store_mapping index
     (fun m => Mapping.mk sender (Mapping.ifc_num m) (Mapping.timeRemembered m))) s =
  (Done tt,
   mkState (num_ifc s) (gifc s)
           (<[Z.to_nat index := Mapping.mk sender (Interface.ifc_num g) current]> (mappings s))
           (mappings_next_empty s),
   []).
Proof.
  intros Hi Hm Hg. pose proof (lookup_lt_Some _ _ _ Hm) as Hlt.
  erewrite bind_Done; [|apply store_mapping_run; eassumption].
  erewrite bind_Done; [|apply load_ifc_num_run; exact Hg].
  erewrite bind_Done;
    [|apply store_mapping_run; [exact Hi|cbn; apply list_lookup_insert_eq; exact Hlt]].
  erewrite store_mapping_run;
    [|exact Hi|cbn; apply list_lookup_insert_eq; rewrite length_insert; exact Hlt].
  cbn. rewrite !list_insert_insert_eq. reflexivity.
Qed.

(** Step 1 on an allocated table, for a frame that came in on
    [gifc[a]]: the sender goes into slot [learn_index], whatever the
    table holds. *)
Lemma learn_run s a g eh current oldest :
  table_allocated s ->
  at_index (gifc s) a = Some g ->
  learn (Gifc a) eh current oldest s =
    (Done tt,
     learned s (learn_index s oldest) (src eh) (Interface.ifc_num g) current,
     []).
Proof.
  intros Hs Hg. pose proof (learn_index_in_table s oldest Hs) as Hidx.
  destruct Hs as [Hlen Hne]. unfold learn.
  rewrite (bind_Done _ _ s _ s
             (learn_loop_run (Gifc a) eh current (Z.to_nat mappings_size) 0 oldest 0 s
                             (Z.le_refl 0) ltac:(rewrite Hlen; cbn; lia))).
  cbn [fst snd Z.eqb Pos.eqb]. rewrite <- Hlen, drop_0, firstn_all.
  unfold learn_index, learned in *.
  set (v := oldest_scan (mappings s) 0 oldest 0) in *.
  destruct (lookup_lt_is_Some_2 (mappings s)
              (Z.to_nat (if mappings_next_empty s <? mappings_size
                         then mappings_next_empty s else v))) as [m Hm];
    [rewrite Hlen; lia|].
  erewrite bind_Done; [|reflexivity].
  destruct (Z.ltb_spec (mappings_next_empty s) mappings_size) as [Hlt|Hge].
  - erewrite bind_Done; [|reflexivity].
    erewrite record_run; [reflexivity|lia|exact Hm|exact Hg].
  - erewrite bind_Done; [|reflexivity].
    erewrite record_run; [reflexivity|lia|exact Hm|exact Hg].
Qed.

(** ** Computations that write nothing and do not abort *)

Lemma silent_ret {A : Type} (a : A) : silent (ret a).
Proof. intros s. split; [reflexivity|discriminate]. Qed.

Lemma silent_fault {A : Type} : silent (@fault A).
Proof. intros s. split; [reflexivity|discriminate]. Qed.

Lemma silent_get : silent get.
Proof. intros s. split; [reflexivity|discriminate]. Qed.

Lemma silent_put s : silent (put s).
Proof. intros s0. split; [reflexivity|discriminate]. Qed.

Lemma silent_load {A : Type} (o : option A) : silent (load o).
Proof. destruct o; [apply silent_ret|apply silent_fault]. Qed.

Lemma silent_bind {A B : Type} (c : M A) (k : A -> M B) :
  silent c -> (forall a, silent (k a)) -> silent (bind c k).
Proof.
  intros Hc Hk s. unfold bind. specialize (Hc s).
  destruct (c s) as [[[a| |] s1] out1]; cbn in *; destruct Hc as [-> Hc];
    [|congruence|split; [reflexivity|discriminate]].
  specialize (Hk a s1). destruct (k a s1) as [[r s2] out2]. cbn in *. tauto.
Qed.

Create HintDb silent.
#[local] Hint Resolve silent_ret silent_fault silent_get silent_put silent_load : silent.
#[local] Hint Extern 2 (silent (bind _ _)) => apply silent_bind; [|intros] : silent.

Lemma silent_load_mapping i : silent (load_mapping i).
Proof. unfold load_mapping. auto with silent. Qed.

Lemma silent_store_mapping i f : silent (store_mapping i f).
Proof. unfold store_mapping. auto 10 with silent. Qed.

Lemma silent_load_ifc_num p : silent (load_ifc_num p).
Proof. destruct p; cbn; auto 10 with silent. Qed.

Lemma silent_load_mac eh p : silent (load_mac eh p).
Proof. destruct p; cbn; auto using silent_load_mapping with silent. Qed.

Lemma silent_maccmp eh p q : silent (maccmp eh p q).
Proof. unfold maccmp. auto 10 using silent_load_mac with silent. Qed.

#[local] Hint Resolve silent_load_mapping silent_store_mapping silent_load_ifc_num
  silent_maccmp : silent.

Lemma silent_learn_loop ifc eh current n :
  forall i oldest oldestIndex, silent (learn_loop ifc eh current n i oldest oldestIndex).
Proof.
  induction n as [|n IH]; intros i oldest oldestIndex; cbn [learn_loop].
  - apply silent_ret.
  - destruct (is_null (Mappings i) || is_null (Mappings_mac i)).
    + apply silent_bind; [auto with silent|]. intros c.
      destruct (negb (c =? 0)); [auto 10 with silent|].
      apply silent_bind; [auto with silent|]. intros m. destruct (_ <? 0); apply IH.
    + apply silent_bind; [auto with silent|]. intros m. destruct (_ <? 0); apply IH.
Qed.

Lemma silent_learn ifc eh current oldest : silent (learn ifc eh current oldest).
Proof.
  unfold learn. apply silent_bind; [apply silent_learn_loop|]. intros r.
  destruct (fst r =? 1); [|apply silent_ret].
  apply silent_bind; [apply silent_get|]. intros s.
  apply silent_bind.
  - destruct (_ <? _); [|apply silent_ret]. unfold set_mappings_next_empty. auto 10 with silent.
  - intros index. auto 10 with silent.
Qed.

(** ** Step 2 and [parse_frame] on a frame with a full header *)

(** The scan for the destination ends at its first comparison:
    [maccmp] is handed the null pointer and [memcmp] reads through
    it. *)
Lemma maccmp_null eh i s : maccmp eh (Mappings_mac i) NULL s = (Fault, s, []).
Proof.
  unfold maccmp. cbn [load_mac].
  destruct (at_index (mappings s) i) as [m|] eqn:E.
  - erewrite bind_Done;
      [reflexivity|erewrite bind_Done; [reflexivity|apply load_mapping_run, E]].
  - erewrite bind_Fault; [reflexivity|].
    erewrite bind_Fault; [reflexivity|apply load_mapping_fault, E].
Qed.

Lemma find_dest_fault eh s : find_dest eh s = (Fault, s, []).
Proof.
  unfold find_dest.
  change (Z.to_nat mappings_size) with (S 9). cbn [find_dest_loop is_null Z.b2z].
  change (int_to_ptr 0) with NULL.
  apply bind_Fault, maccmp_null.
Qed.

Lemma parse_frame_full_header ifc frame current oldest s :
  sizeof_EthernetHeader <= Z.of_nat (length frame) ->
  exists s', parse_frame ifc frame current oldest s = (Fault, s', []).
Proof.
  intros Hlen. unfold parse_frame.
  destruct (Z.ltb_spec (Z.of_nat (length frame)) sizeof_EthernetHeader); [lia|].
  cbn [is_null]. rewrite (bind_Done _ _ s tt s eq_refl).
  pose proof (silent_learn ifc (read_header frame) current oldest s) as [Hout Hab].
  unfold bind at 1.
  destruct (learn ifc (read_header frame) current oldest s) as [[[[]| |] s1] out1];
    cbn in Hout, Hab; subst out1; [|congruence|eauto].
  rewrite (bind_Fault _ _ s1 s1 [] (find_dest_fault _ s1)). eauto.
Qed.


(** ** The table after step 1 *)

Lemma find_app_Some {A : Type} (p : A -> bool) (l k : list A) (x : A) :
  find p l = Some x -> find p (l ++ k) = Some x.
Proof.
  induction l as [|y l IH]; cbn; [discriminate|].
  destruct (p y); [trivial|exact IH].
Qed.

Lemma find_app_None {A : Type} (p : A -> bool) (l k : list A) :
  find p l = None -> find p (l ++ k) = find p k.
Proof.
  induction l as [|y l IH]; cbn; [trivial|].
  destruct (p y); [discriminate|exact IH].
Qed.

(** While a slot is free, step 1 appends the sender to the entries. *)
Lemma entries_learned s mac k current :
  table_allocated s ->
  mappings_next_empty s < mappings_size ->
  entries (learned s (mappings_next_empty s) mac k current) =
    entries s ++ [Mapping.mk mac k current].
Proof.
  intros [Hlen Hne] Hlt. unfold entries, learned. cbn [mappings mappings_next_empty].
  destruct (Z.ltb_spec (mappings_next_empty s) mappings_size); [|lia].
  replace (Z.to_nat (mappings_next_empty s + 1)) with (S (Z.to_nat (mappings_next_empty s))) by lia.
  erewrite take_S_r; [|apply list_lookup_insert_eq; rewrite Hlen; lia].
  rewrite take_insert_ge by lia. reflexivity.
Qed.

Lemma learn_index_free s oldest :
  mappings_next_empty s < mappings_size -> learn_index s oldest = mappings_next_empty s.
Proof.
  intros H. unfold learn_index.
  destruct (Z.ltb_spec (mappings_next_empty s) mappings_size); [reflexivity|lia].
Qed.

Lemma table_allocated_learned s index mac k current :
  table_allocated s -> table_allocated (learned s index mac k current).
Proof.
  intros [Hlen Hne]. unfold table_allocated, learned. cbn [mappings mappings_next_empty].
  rewrite length_insert. split; [exact Hlen|].
  destruct (Z.ltb_spec (mappings_next_empty s) mappings_size); lia.
Qed.

Lemma table_allocated_s0 : table_allocated Sample.s0.
Proof. split; [reflexivity|]. cbn. unfold mappings_size. lia. Qed.

Lemma table_allocated_s1 m k t : table_allocated (Sample.s1 m k t).
Proof. split; [reflexivity|]. cbn. unfold mappings_size. lia. Qed.

(** ** C7: frames shorter than a header *)

(** C7.  A frame of fewer than 14 bytes, handed to [handle_frame] with
    an interface number that passes the range check, is dropped: the
    call returns, the globals (the address table among them) are the
    same, and nothing is written to standard output. *)
Theorem handle_frame_short_frame s interface frame current oldest :
  interface <= num_ifc s ->
  Z.of_nat (length frame) < sizeof_EthernetHeader ->
  handle_frame interface frame current oldest s = (Done tt, s, []).
Proof.
  intros Hi Hlen. unfold handle_frame.
  erewrite bind_Done; [|reflexivity].
  destruct (Z.ltb_spec (num_ifc s) interface); [lia|].
  unfold parse_frame.
  destruct (Z.ltb_spec (Z.of_nat (length frame)) sizeof_EthernetHeader); [reflexivity|lia].
Qed.

Lemma handle_frame_short_frame_witness :
  handle_frame 2 Sample.short_frame 100 100 Sample.s0 = (Done tt, Sample.s0, []).
Proof.
  apply handle_frame_short_frame.
  - cbn. lia.
  - cbn. unfold sizeof_EthernetHeader. lia.
Defined.

(** ** C8: the range check on interface numbers *)

(** C8 (as amended).  [handle_frame] and [handle_mac] call [abort]
    exactly when the interface number is greater than [num_ifc]. *)
Theorem abort_iff_above_num_ifc s interface frame current oldest mac :
  ((handle_frame interface frame current oldest s).1.1 = Abort <-> num_ifc s < interface) /\
  ((handle_mac interface mac s).1.1 = Abort <-> num_ifc s < interface).
Proof.
  split.
  - unfold handle_frame. erewrite bind_Done; [|reflexivity].
    destruct (Z.ltb_spec (num_ifc s) interface) as [Hlt|Hge].
    + split; [intros _; exact Hlt|reflexivity].
    + split; [|lia]. intros H.
      destruct (Z.lt_ge_cases (Z.of_nat (length frame)) sizeof_EthernetHeader) as [Hs|Hl].
      * unfold parse_frame in H.
        destruct (Z.ltb_spec (Z.of_nat (length frame)) sizeof_EthernetHeader); [|lia].
        discriminate.
      * destruct (parse_frame_full_header (Gifc (interface - 1)) frame current oldest s Hl)
          as [s' Hs'].
        rewrite Hs' in H. discriminate.
  - unfold handle_mac. erewrite bind_Done; [|reflexivity].
    destruct (Z.ltb_spec (num_ifc s) interface) as [Hlt|Hge].
    + split; [intros _; exact Hlt|reflexivity].
    + split; [|lia]. intros H. exfalso. revert H.
      apply (silent_bind (load (at_index (gifc s) (interface - 1)))); [apply silent_load|].
      intros i. apply silent_bind; [apply silent_load|]. intros g. apply silent_put.
Qed.

(** C8, counterexample to the range 1..N: interface number 0 lies
    outside 1..3, yet [handle_frame] returns and [handle_mac] goes on
    to [gifc[-1]]; neither aborts. *)
Lemma interface_zero_not_rejected :
  ~ (1 <= 0 <= num_ifc Sample.s0) /\
  handle_frame 0 Sample.short_frame 100 100 Sample.s0 = (Done tt, Sample.s0, []) /\
  handle_mac 0 Sample.AA Sample.s0 = (Fault, Sample.s0, []).
Proof. split; [lia|]. split; reflexivity. Qed.

(** ** C10: control commands *)

(** C10.  For a command of [cmd_len >= 1] bytes in the buffer [cmd],
    [handle_control] returns with the globals unchanged and nothing
    written to standard output; the buffer differs from the caller's
    only in byte [cmd_len - 1], now NUL, and the text logged is the
    buffer up to its first NUL. *)
Theorem handle_control_effect s cmd cmd_len :
  1 <= cmd_len ->
  cmd_len <= Z.of_nat (length cmd) ->
  cmd_len < 2 ^ 64 ->
  handle_control cmd cmd_len s =
    (Done (<[Z.to_nat (cmd_len - 1) := 0]> cmd,
           c_string (<[Z.to_nat (cmd_len - 1) := 0]> cmd)),
     s, []).
Proof.
  intros H1 H2 H3. unfold handle_control.
  rewrite Z.mod_small by lia.
  rewrite set_index_Some by lia. reflexivity.
Qed.

Lemma handle_control_effect_witness :
  handle_control [104; 105; 10] 3 Sample.s0 =
    (Done ([104; 105; 0], [104; 105]), Sample.s0, []).
Proof.
  apply (handle_control_effect Sample.s0 [104; 105; 10] 3).
  - lia.
  - cbn. lia.
  - lia.
Defined.

(** ** Step 1 on a table that is supplied: a sender it holds already *)



(** ** C6: what is sent for a frame with a full header *)

(** C6 (what the code does).  A frame with a full header addressed to
    FF:FF:FF:FF:FF:FF is sent to no interface: the test for a
    broadcast destination compares the address of a local with
    [NULL], and step 2 ends the call before anything is written. *)
Theorem broadcast_destination_not_flooded s interface frame current oldest :
  interface <= num_ifc s ->
  sizeof_EthernetHeader <= Z.of_nat (length frame) ->
  dst (read_header frame) = broadcast ->
  exists s', handle_frame interface frame current oldest s = (Fault, s', []).
Proof.
  intros Hi Hlen _. unfold handle_frame.
  erewrite bind_Done; [|reflexivity].
  destruct (Z.ltb_spec (num_ifc s) interface); [lia|].
  apply parse_frame_full_header. exact Hlen.
Qed.

Lemma broadcast_destination_not_flooded_witness :
  exists s',
    handle_frame 1 (Sample.frame broadcast Sample.AA) 100 100 Sample.s0 = (Fault, s', []).
Proof.
  apply broadcast_destination_not_flooded.
  - cbn. lia.
  - cbn. unfold sizeof_EthernetHeader. lia.
  - reflexivity.
Defined.

(** ** Step 1 on a table that is supplied: a frame from the broadcast address *)

(** X23.  Step 1 has no test on the source address: on a table that
    is allocated it records a sender FF:FF:FF:FF:FF:FF like any
    other.  Slot [learn_index] (the fill mark while a slot is free,
    else the slot the scan of step 1 ends on) then holds the broadcast
    address, the number of the arrival interface and the first clock
    reading, and the other slots are as before. *)
Theorem broadcast_source_recorded s a g frame current oldest :
  table_allocated s ->
  at_index (gifc s) a = Some g ->
  src (read_header frame) = broadcast ->
  exists s',
    learn (Gifc a) (read_header frame) current oldest s = (Done tt, s', []) /\
    at_index (mappings s') (learn_index s oldest) =
      Some (Mapping.mk broadcast (Interface.ifc_num g) current) /\
    forall j, j <> learn_index s oldest ->
      at_index (mappings s') j = at_index (mappings s) j.
Proof.
  intros Hs Hg Hsrc. pose proof (learn_index_in_table s oldest Hs) as Hidx.
  eexists. split; [apply learn_run; eassumption|].
  rewrite Hsrc. unfold learned. cbn [mappings]. split.
  - apply at_index_Some. split; [lia|].
    apply list_lookup_insert_eq. destruct Hs as [-> _]. lia.
  - intros j Hj. unfold at_index. destruct (0 <=? j) eqn:E; [|reflexivity].
    apply list_lookup_insert_ne. apply Z.leb_le in E. lia.
Qed.

Lemma broadcast_source_recorded_witness :
  exists s',
    learn (Gifc 0) (read_header (Sample.frame Sample.AA broadcast)) 100 100 Sample.s0 =
      (Done tt, s', []) /\
    at_index (mappings s') 0 = Some (Mapping.mk broadcast 1 100) /\
    forall j, j <> 0 -> at_index (mappings s') j = at_index (mappings Sample.s0) j.
Proof.
  apply (broadcast_source_recorded Sample.s0 0 (Interface.mk [0; 0; 0; 0; 0; 0] 1)
           (Sample.frame Sample.AA broadcast) 100 100).
  - apply table_allocated_s0.
  - reflexivity.
  - reflexivity.
Defined.

(** ** C9: the messages written to standard output *)

Lemma bind_run {A B : Type} (c : M A) (k : A -> M B) s a s1 out1 r s2 out2 :
  c s = (Done a, s1, out1) -> k a s1 = (r, s2, out2) ->
  bind c k s = (r, s2, out1 ++ out2).
Proof. intros Hc Hk. unfold bind. now rewrite Hc, Hk. Qed.

Lemma forward_to_run s a g frame :
  at_index (gifc s) a = Some g ->
  forward_to (Gifc a) frame s = (Done tt, s, [message frame (Interface.ifc_num g)]).
Proof.
  intros Hg. unfold forward_to.
  erewrite bind_Done; [reflexivity|apply load_ifc_num_run, Hg].
Qed.

Lemma flood_loop_run s k frame :
  interfaces_numbered s ->
  forall n a,
    0 <= a -> a + Z.of_nat n <= num_ifc s ->
    flood_loop (Gifc k) frame n a s =
      (Done tt, s,
       map (message frame) (filter (fun j => j <> k + 1) (seqZ (a + 1) (Z.of_nat n)))).
Proof.
  intros (Hlen & _ & Hnum). induction n as [|n IH]; intros a Ha Hn.
  - reflexivity.
  - cbn [flood_loop addr_ifc_num ptr_eqb].
    rewrite seqZ_cons by lia.
    replace (Z.pred (Z.of_nat (S n))) with (Z.of_nat n) by lia.
    replace (Z.succ (a + 1)) with (a + 1 + 1) by lia.
    destruct (lookup_lt_is_Some_2 (gifc s) (Z.to_nat a)) as [g Hg]; [lia|].
    pose proof (Hnum _ _ Hg) as Hk. rewrite Z2Nat.id in Hk by lia.
    destruct (Z.eqb_spec a k) as [->|Hne]; cbn [negb].
    + rewrite filter_cons_False by (intros H; apply H; reflexivity).
      erewrite bind_Done; [|reflexivity]. apply IH; lia.
    + rewrite filter_cons_True by lia. cbn [map].
      eapply (bind_run _ _ s tt s [_]); [|apply IH; lia].
      rewrite <- Hk. apply forward_to_run, at_index_Some. split; [lia|exact Hg].
Qed.

Lemma message_fields_message frame k :
  0 <= Z.of_nat (length frame) + sizeof_GLAB_MessageHeader < 65536 ->
  0 <= k < 65536 ->
  message_fields (message frame k) =
    Some (Z.of_nat (length frame) + sizeof_GLAB_MessageHeader, k, frame).
Proof.
  assert (H16 : forall x, 0 <= x < 65536 ->
                  256 * Z.shiftr (Z.land x 65535) 8 + Z.land x 255 = x).
  { intros x Hx. change 65535 with (Z.ones 16). change 255 with (Z.ones 8).
    rewrite !Z.land_ones, Z.shiftr_div_pow2 by lia.
    rewrite (Z.mod_small x (2 ^ 16)) by lia.
    change (2 ^ 8) with 256. pose proof (Z.div_mod x 256). lia. }
  intros Hs Hk. unfold message, message_fields, htons. cbn [app].
  rewrite (H16 _ Hs), (H16 _ Hk). reflexivity.
Qed.

Lemma StronglySorted_seqZ n : forall m, StronglySorted Z.lt (seqZ m (Z.of_nat n)).
Proof.
  induction n as [|n IH]; intros m.
  - constructor.
  - rewrite seqZ_cons by lia. replace (Z.pred (Z.of_nat (S n))) with (Z.of_nat n) by lia.
    constructor; [apply IH|].
    apply Forall_forall. intros x Hx. apply elem_of_seqZ in Hx. lia.
Qed.

Lemma StronglySorted_filter_lt (P : Z -> Prop) `{!forall x, Decision (P x)} (l : list Z) :
  StronglySorted Z.lt l -> StronglySorted Z.lt (filter P l).
Proof.
  induction 1 as [|x l Hl IH Hx]; [constructor|].
  destruct (decide (P x)).
  - rewrite filter_cons_True by assumption. constructor; [exact IH|].
    apply Forall_forall. intros y Hy. apply list_elem_of_filter in Hy.
    rewrite Forall_forall in Hx. apply Hx, Hy.
  - rewrite filter_cons_False by assumption. exact IH.
Qed.

(** C9.  With the interfaces numbered as [main] numbers them and a
    frame that fits the 16-bit size field: [forward_to] writes one
    message, the two header fields in network byte order (the size of
    frame plus header, then the number of the target interface)
    followed by the bytes of the frame; the loop that sends a frame
    on from interface [interface] writes one such message per other
    interface, by increasing interface number, and so does
    [handle_frame] of the file's second version. *)
Theorem flood_messages s interface frame :
  interfaces_numbered s ->
  1 <= interface <= num_ifc s ->
  Z.of_nat (length frame) + sizeof_GLAB_MessageHeader < 65536 ->
  (forall a g, at_index (gifc s) a = Some g ->
     forward_to (Gifc a) frame s =
       (Done tt, s,
        [htons (Z.of_nat (length frame) + sizeof_GLAB_MessageHeader)
           ++ htons (Interface.ifc_num g) ++ frame])) /\
  flood (Gifc (interface - 1)) frame s =
    (Done tt, s, map (message frame) (targets s interface)) /\
  map message_fields (map (message frame) (targets s interface)) =
    map (fun k => Some (Z.of_nat (length frame) + sizeof_GLAB_MessageHeader, k, frame))
        (targets s interface) /\
  StronglySorted Z.lt (targets s interface) /\
  (forall k, k ∈ targets s interface <-> 1 <= k <= num_ifc s /\ k <> interface) /\
  (sizeof_EthernetHeader <= Z.of_nat (length frame) ->
   Hub.handle_frame interface frame s =
     (Done tt, s, map (message frame) (targets s interface))).
Proof.
  intros Hs Hi Hlen.
  assert (Hflood : flood (Gifc (interface - 1)) frame s =
                     (Done tt, s, map (message frame) (targets s interface))).
  { unfold flood. erewrite bind_Done; [|reflexivity].
    rewrite (flood_loop_run s (interface - 1) frame Hs) by lia.
    unfold targets. rewrite Z2Nat.id by lia.
    replace (interface - 1 + 1) with interface by lia. reflexivity. }
  assert (Hmem : forall k, k ∈ targets s interface <-> 1 <= k <= num_ifc s /\ k <> interface).
  { intros k. unfold targets. rewrite list_elem_of_filter, elem_of_seqZ. lia. }
  split; [|split; [|split; [|split; [|split]]]].
  - intros a g Hg. apply forward_to_run, Hg.
  - exact Hflood.
  - rewrite map_map. apply map_ext_in. intros k Hk.
    apply list_elem_of_In, Hmem in Hk.
    apply message_fields_message; [unfold sizeof_GLAB_MessageHeader in *; lia|].
    destruct Hs as (_ & Hn & _). lia.
  - unfold targets. apply StronglySorted_filter_lt.
    rewrite <- (Z2Nat.id (num_ifc s)) by lia. apply StronglySorted_seqZ.
  - exact Hmem.
  - intros Hfull. unfold Hub.handle_frame. erewrite bind_Done; [|reflexivity].
    destruct (Z.ltb_spec (num_ifc s) interface); [lia|].
    unfold Hub.parse_frame.
    destruct (Z.ltb_spec (Z.of_nat (length frame)) sizeof_EthernetHeader); [lia|].
    destruct (lookup_lt_is_Some_2 (gifc s) (Z.to_nat (interface - 1))) as [g Hg];
      [destruct Hs as (Hl & _); lia|].
    erewrite bind_Done; [exact Hflood|].
    apply load_ifc_num_run, at_index_Some. split; [lia|exact Hg].
Qed.

Lemma interfaces_numbered_s0 : interfaces_numbered Sample.s0.
Proof.
  split; [reflexivity|]. split; [cbn; lia|].
  intros a g. destruct a as [|[|[|a]]]; cbn; intros [= <-]; reflexivity.
Qed.

Lemma flood_messages_witness :
  flood (Gifc 0) (Sample.frame broadcast Sample.AA) Sample.s0 =
    (Done tt, Sample.s0,
     [[0; 21; 0; 2] ++ Sample.frame broadcast Sample.AA;
      [0; 21; 0; 3] ++ Sample.frame broadcast Sample.AA]).
Proof.
  destruct (flood_messages Sample.s0 1 (Sample.frame broadcast Sample.AA))
    as (_ & H & _).
  - apply interfaces_numbered_s0.
  - change (1 <= 1 <= 3). lia.
  - vm_compute. reflexivity.
  - exact H.
Defined.

(** ** The scan of step 1 for the oldest slot *)

Lemma scan_inv_step old P o oi m :
  scan_inv old P o oi ->
  scan_inv old (P ++ [m])
    (if difftime (Mapping.timeRemembered m) o <? 0 then Mapping.timeRemembered m else o)
    (if difftime (Mapping.timeRemembered m) o <? 0 then Z.of_nat (length P) else oi).
Proof.
  intros H. unfold difftime.
  destruct (Z.ltb_spec (Mapping.timeRemembered m - o) 0) as [Hlt|Hge].
  - right.
    assert (Hold : Mapping.timeRemembered m < old) by (destruct H as [(-> & _)|(? & _)]; lia).
    assert (HP : forall (j : nat) m', P !! j = Some m' ->
                   Mapping.timeRemembered m < Mapping.timeRemembered m').
    { intros j m' Hj. destruct H as [(-> & _ & HF)|(_ & _ & m0 & _ & _ & Hall & _)].
      - rewrite Forall_forall in HF.
        specialize (HF m' (list_elem_of_lookup_2 _ _ _ Hj)). lia.
      - specialize (Hall j m' Hj). lia. }
    split; [exact Hold|]. split; [lia|]. exists m. rewrite Nat2Z.id.
    split; [apply list_lookup_middle; reflexivity|]. split; [reflexivity|]. split.
    + intros j m' Hj. apply lookup_snoc_Some in Hj as [[_ Hj]|[_ <-]]; [|lia].
      specialize (HP j m' Hj). lia.
    + intros j m' Hlt' Hj. apply lookup_snoc_Some in Hj as [[_ Hj]|[-> _]]; [|lia].
      exact (HP j m' Hj).
  - destruct H as [(-> & -> & HF)|(Ho & Hoi & m0 & Hm0 & Ht & Hall & Hstrict)].
    + left. split; [reflexivity|]. split; [reflexivity|].
      apply Forall_app. split; [exact HF|]. constructor; [lia|constructor].
    + right. split; [exact Ho|]. split; [exact Hoi|]. exists m0.
      split; [apply lookup_app_l_Some; exact Hm0|]. split; [exact Ht|]. split.
      * intros j m' Hj. apply lookup_snoc_Some in Hj as [[_ Hj]|[_ <-]]; [|lia].
        exact (Hall j m' Hj).
      * intros j m' Hlt' Hj. apply lookup_snoc_Some in Hj as [[_ Hj]|[-> _]].
        -- exact (Hstrict j m' Hlt' Hj).
        -- apply lookup_lt_Some in Hm0. lia.
Qed.

Lemma oldest_scan_inv old l :
  forall P o oi,
    scan_inv old P o oi ->
    exists o', scan_inv old (P ++ l) o' (oldest_scan l (Z.of_nat (length P)) o oi).
Proof.
  induction l as [|m l IH]; intros P o oi H.
  - rewrite app_nil_r. exists o. exact H.
  - cbn [oldest_scan]. rewrite (cons_middle m P l), app_assoc.
    replace (Z.of_nat (length P) + 1) with (Z.of_nat (length (P ++ [m])))
      by (rewrite length_app; cbn; lia).
    pose proof (scan_inv_step old P o oi m H) as Hstep.
    destruct (difftime (Mapping.timeRemembered m) o <? 0); apply IH, Hstep.
Qed.

(** With no slot newer than the clock reading, the scan of step 1
    ends on the first slot with the least time. *)
Lemma oldest_scan_first_oldest l old :
  l <> [] ->
  Forall (fun m => Mapping.timeRemembered m <= old) l ->
  first_oldest l (oldest_scan l 0 old 0).
Proof.
  intros Hne Hold.
  destruct (oldest_scan_inv old l [] old 0) as [o' H].
  { left. split; [reflexivity|]. split; [reflexivity|constructor]. }
  cbn [app length] in H. change (Z.of_nat 0) with 0 in H.
  destruct H as [(_ & -> & HF)|(_ & Hoi & m & Hm & Ht & Hall & Hstrict)].
  - destruct l as [|m l]; [congruence|]. split; [lia|]. exists m.
    split; [reflexivity|]. split; [|intros j m' Hj; cbn in Hj; lia].
    intros j m' Hj. apply list_elem_of_lookup_2 in Hj.
    rewrite Forall_forall in HF, Hold.
    specialize (HF m' Hj).
    specialize (Hold m (proj2 (elem_of_cons l m m) (or_introl eq_refl))). lia.
  - split; [exact Hoi|]. exists m. split; [exact Hm|]. subst o'.
    split; [exact Hall|exact Hstrict].
Qed.

Lemma entries_full s :
  table_allocated s -> mappings_next_empty s = mappings_size -> entries s = mappings s.
Proof.
  intros [Hlen _] Hfull. unfold entries. apply take_ge. rewrite Hlen, Hfull. lia.
Qed.

Lemma elem_of_map {A B : Type} (f : A -> B) (l : list A) (y : B) :
  y ∈ map f l <-> exists x, y = f x /\ x ∈ l.
Proof.
  rewrite list_elem_of_In, in_map_iff. split; intros (x & H1 & H2); exists x.
  - apply list_elem_of_In in H2. auto.
  - apply list_elem_of_In in H2. auto.
Qed.

Lemma table_allocated_full : table_allocated Sample.full.
Proof. split; [reflexivity|]. cbn. unfold mappings_size. lia. Qed.

(** ** C1 to C5: the table over a run of the first version *)

(** Without storage behind [mappings], step 1 ends at its first access
    to the table, before any store. *)
Lemma learn_no_table ifc eh current oldest s :
  mappings s = [] -> learn ifc eh current oldest s = (Fault, s, []).
Proof.
  intros Hm. unfold learn. apply bind_Fault.
  change (Z.to_nat mappings_size) with (S 9). cbn [learn_loop is_null orb].
  apply bind_Fault, load_mapping_fault. rewrite Hm. reflexivity.
Qed.

Lemma handle_frame_no_table s interface frame current oldest :
  mappings s = [] ->
  interface <= num_ifc s ->
  sizeof_EthernetHeader <= Z.of_nat (length frame) ->
  handle_frame interface frame current oldest s = (Fault, s, []).
Proof.
  intros Hm Hi Hfull. unfold handle_frame. erewrite bind_Done; [|reflexivity].
  destruct (Z.ltb_spec (num_ifc s) interface); [lia|]. unfold parse_frame.
  destruct (Z.ltb_spec (Z.of_nat (length frame)) sizeof_EthernetHeader); [lia|].
  cbn [is_null]. rewrite (bind_Done _ _ s tt s eq_refl).
  apply bind_Fault, learn_no_table, Hm.
Qed.


(** A call of [handle_frame] that returns has changed nothing. *)
Lemma handle_frame_Done s interface frame current oldest v s' out :
  handle_frame interface frame current oldest s = (Done v, s', out) -> s' = s.
Proof.
  unfold handle_frame. erewrite bind_Done; [|reflexivity].
  destruct (num_ifc s <? interface); [discriminate|].
  destruct (Z.lt_ge_cases (Z.of_nat (length frame)) sizeof_EthernetHeader) as [Hs|Hl].
  - unfold parse_frame.
    destruct (Z.ltb_spec (Z.of_nat (length frame)) sizeof_EthernetHeader); [|lia].
    intros [= _ <- _]. reflexivity.
  - destruct (parse_frame_full_header (Gifc (interface - 1)) frame current oldest s Hl)
      as [s1 ->]. discriminate.
Qed.

Lemma handle_mac_table s k mac :
  mappings (handle_mac k mac s).1.2 = mappings s /\
  mappings_next_empty (handle_mac k mac s).1.2 = mappings_next_empty s.
Proof.
  unfold handle_mac, bind, get, load.
  destruct (num_ifc s <? k); [split; reflexivity|].
  destruct (at_index (gifc s) (k - 1)) as [i|]; cbn; [|split; reflexivity].
  destruct (set_index (gifc s) (k - 1) _); cbn; split; reflexivity.
Qed.

Lemma handle_control_state s cmd cmd_len : (handle_control cmd cmd_len s).1.2 = s.
Proof.
  unfold handle_control, bind, load.
  destruct (set_index cmd _ 0); reflexivity.
Qed.

(** No state of a run has storage behind [mappings], and the fill
    mark stays 0. *)
Lemma reachable_no_table s :
  reachable s -> mappings s = [] /\ mappings_next_empty s = 0.
Proof.
  induction 1 as [n|s interface frame current oldest s' out _ IH Hrun
                  |s k mac s' out _ IH Hrun|s cmd cmd_len v s' out _ IH Hrun].
  - split; reflexivity.
  - apply handle_frame_Done in Hrun. subst s'. exact IH.
  - pose proof (handle_mac_table s k mac) as [H1 H2]. rewrite Hrun in H1, H2.
    cbn in H1, H2. rewrite H1, H2. exact IH.
  - pose proof (handle_control_state s cmd cmd_len) as H1. rewrite Hrun in H1.
    cbn in H1. subst s'. exact IH.
Qed.

Lemma reachable_no_entries s : reachable s -> entries s = [].
Proof.
  intros H. apply reachable_no_table in H as [Hm _]. unfold entries. rewrite Hm.
  apply take_nil.
Qed.

(** C1 (what the code does).  In no state of a run is the sender of a
    frame learned: for a frame with a full header from an interface
    that passes the range check, step 1 ends at its first access to
    the table and so does [handle_frame], with the globals as they
    were and nothing written; the table holds no entry, and a lookup
    of the sender finds nothing. *)
Theorem sender_not_learned s interface frame current oldest :
  reachable s ->
  interface <= num_ifc s ->
  sizeof_EthernetHeader <= Z.of_nat (length frame) ->
  learn (Gifc (interface - 1)) (read_header frame) current oldest s = (Fault, s, []) /\
  handle_frame interface frame current oldest s = (Fault, s, []) /\
  table_lookup (handle_frame interface frame current oldest s).1.2
               (src (read_header frame)) = None.
Proof.
  intros Hr Hi Hfull. pose proof (reachable_no_table s Hr) as [Hm _].
  split; [apply learn_no_table, Hm|].
  rewrite handle_frame_no_table by assumption. split; [reflexivity|].
  cbn [fst snd]. unfold table_lookup. rewrite (reachable_no_entries s Hr). reflexivity.
Qed.

Lemma sender_not_learned_witness :
  learn (Gifc (2 - 1)) (read_header (Sample.frame Sample.BB Sample.AA)) 200 200
        (start_state 3) = (Fault, start_state 3, []) /\
  handle_frame 2 (Sample.frame Sample.BB Sample.AA) 200 200 (start_state 3) =
    (Fault, start_state 3, []) /\
  table_lookup (handle_frame 2 (Sample.frame Sample.BB Sample.AA) 200 200 (start_state 3)).1.2
               Sample.AA = None.
Proof.
  apply (sender_not_learned (start_state 3) 2 (Sample.frame Sample.BB Sample.AA) 200 200).
  - apply reachable_start.
  - change (2 <= 3). lia.
  - vm_compute. discriminate.
Defined.





(** C4 (what the code does).  In every state of a run the table holds
    no entry, so never more than [mappings_size] = 10, and no MAC is
    found in it; a frame with a full header from an interface that
    passes the range check ends the run with nothing recorded.  So
    after frames from eleven senders none of them is in the table. *)
Theorem table_never_filled s :
  reachable s ->
  Z.of_nat (length (entries s)) <= mappings_size /\
  (forall m, table_lookup s m = None) /\
  (forall interface frame current oldest,
     interface <= num_ifc s ->
     sizeof_EthernetHeader <= Z.of_nat (length frame) ->
     handle_frame interface frame current oldest s = (Fault, s, [])).
Proof.
  intros Hr. pose proof (reachable_no_table s Hr) as [Hm _].
  split; [|split].
  - rewrite (reachable_no_entries s Hr). cbn. unfold mappings_size. lia.
  - intros m. unfold table_lookup. rewrite (reachable_no_entries s Hr). reflexivity.
  - intros interface frame current oldest Hi Hfull.
    apply handle_frame_no_table; assumption.
Qed.

Lemma table_never_filled_witness :
  Z.of_nat (length (entries (start_state 3))) <= mappings_size /\
  (forall m, table_lookup (start_state 3) m = None) /\
  (forall interface frame current oldest,
     interface <= num_ifc (start_state 3) ->
     sizeof_EthernetHeader <= Z.of_nat (length frame) ->
     handle_frame interface frame current oldest (start_state 3) =
       (Fault, start_state 3, [])).
Proof.
  apply (table_never_filled (start_state 3)). apply reachable_start.
Defined.



(** * Further properties *)

(** ** What a computation leaves of the globals *)

Section Keeps.

Variable R : state -> state -> Prop.
Hypothesis R_refl : forall s, R s s.
Hypothesis R_trans : forall s1 s2 s3, R s1 s2 -> R s2 s3 -> R s1 s3.

Lemma keeps_ret {A : Type} (a : A) : keeps R (ret a).
Proof. intros s. apply R_refl. Qed.

Lemma keeps_fault {A : Type} : keeps R (@fault A).
Proof. intros s. apply R_refl. Qed.

Lemma keeps_abort {A : Type} : keeps R (@abort A).
Proof. intros s. apply R_refl. Qed.

Lemma keeps_get : keeps R get.
Proof. intros s. apply R_refl. Qed.

Lemma keeps_write_all iob : keeps R (write_all iob).
Proof. intros s. apply R_refl. Qed.

Lemma keeps_load {A : Type} (o : option A) : keeps R (load o).
Proof. destruct o; [apply keeps_ret|apply keeps_fault]. Qed.

Lemma keeps_bind {A B : Type} (c : M A) (k : A -> M B) :
  keeps R c -> (forall a, keeps R (k a)) -> keeps R (bind c k).
Proof.
  intros Hc Hk s. unfold bind. specialize (Hc s).
  destruct (c s) as [[[a| |] s1] out1]; cbn in *; try exact Hc.
  specialize (Hk a s1). destruct (k a s1) as [[r s2] out2]. cbn in *.
  eapply R_trans; eassumption.
Qed.

Lemma keeps_load_mapping i : keeps R (load_mapping i).
Proof. apply keeps_bind; [apply keeps_get|intros s; apply keeps_load]. Qed.

Lemma keeps_load_ifc_num p : keeps R (load_ifc_num p).
Proof.
  destruct p; cbn; try apply keeps_fault.
  apply keeps_bind; [apply keeps_get|]. intros s.
  apply keeps_bind; [apply keeps_load|]. intros i. apply keeps_ret.
Qed.

Lemma keeps_load_mac eh p : keeps R (load_mac eh p).
Proof.
  destruct p; cbn; try apply keeps_fault; try apply keeps_ret.
  apply keeps_bind; [apply keeps_load_mapping|]. intros m. apply keeps_ret.
Qed.

Lemma keeps_maccmp eh p q : keeps R (maccmp eh p q).
Proof.
  apply keeps_bind; [apply keeps_load_mac|]. intros m1.
  apply keeps_bind; [apply keeps_load_mac|]. intros m2. apply keeps_ret.
Qed.

Lemma keeps_draft_maccmp eh p q : keeps R (Draft.maccmp eh p q).
Proof.
  apply keeps_bind; [apply keeps_load_mac|]. intros m1.
  apply keeps_bind; [apply keeps_load_mac|]. intros m2. apply keeps_ret.
Qed.

Lemma keeps_forward_to p frame : keeps R (forward_to p frame).
Proof.
  apply keeps_bind; [apply keeps_load_ifc_num|]. intros n. apply keeps_write_all.
Qed.

Lemma keeps_flood_loop ifc frame n : forall a, keeps R (flood_loop ifc frame n a).
Proof.
  induction n as [|n IH]; intros a; cbn [flood_loop]; [apply keeps_ret|].
  apply keeps_bind; [|intros _; apply IH].
  destruct (negb _); [apply keeps_forward_to|apply keeps_ret].
Qed.

Lemma keeps_flood ifc frame : keeps R (flood ifc frame).
Proof. apply keeps_bind; [apply keeps_get|]. intros s. apply keeps_flood_loop. Qed.

(** The draft stores into the table without touching the MAC of a
    slot. *)
Hypothesis R_store_mapping :
  forall i f, (forall m, Mapping.mac (f m) = Mapping.mac m) -> keeps R (store_mapping i f).

(** The first version stores any member and moves the fill mark. *)
Hypothesis R_store_any : forall i f, keeps R (store_mapping i f).
Hypothesis R_next_empty : forall n, keeps R (set_mappings_next_empty n).

Lemma keeps_find_dest_loop eh n : forall i, keeps R (find_dest_loop eh n i).
Proof.
  induction n as [|n IH]; intros i; cbn [find_dest_loop]; [apply keeps_ret|].
  apply keeps_bind; [apply keeps_maccmp|]. intros c.
  destruct (negb _); [|apply IH].
  apply keeps_bind; [apply keeps_load_mapping|]. intros m. apply keeps_ret.
Qed.

Lemma keeps_draft_scan eh n :
  forall i o sI d, keeps R (Draft.scan eh n i o sI d).
Proof.
  induction n as [|n IH]; intros i o sI d; cbn [Draft.scan]; [apply keeps_ret|].
  apply keeps_bind.
  - destruct (sI =? _); [|apply keeps_ret].
    apply keeps_bind; [apply keeps_draft_maccmp|]. intros b.
    destruct b; [apply keeps_ret|].
    apply keeps_bind; [apply keeps_load_mapping|]. intros m.
    apply keeps_bind; [apply keeps_load_mapping|]. intros m'.
    destruct (_ <? 0); apply keeps_ret.
  - intros os. apply keeps_bind.
    + destruct (d =? _); [|apply keeps_ret].
      apply keeps_bind; [apply keeps_draft_maccmp|]. intros b.
      destruct b; apply keeps_ret.
    + intros d'. destruct (_ && _); [apply keeps_ret|apply IH].
Qed.

Lemma keeps_draft_save ifc index now : keeps R (Draft.save ifc index now).
Proof.
  apply keeps_bind; [apply keeps_load_ifc_num|]. intros k.
  apply keeps_bind; [apply R_store_mapping; reflexivity|]. intros _.
  apply R_store_mapping. reflexivity.
Qed.

Lemma keeps_draft_handle_frame interface frame now :
  keeps R (Draft.handle_frame interface frame now).
Proof.
  apply keeps_bind; [apply keeps_get|]. intros s.
  destruct (_ <? _); [apply keeps_abort|]. unfold Draft.parse_frame.
  destruct (_ <? _); [apply keeps_ret|].
  apply keeps_bind; [apply keeps_draft_scan|]. intros r.
  apply keeps_bind; [destruct (negb _); apply keeps_draft_save|]. intros _.
  destruct (negb _); [|apply keeps_flood].
  apply keeps_bind; [apply keeps_load_mapping|]. intros m. apply keeps_write_all.
Qed.

Lemma keeps_learn_loop ifc eh current n :
  forall i oldest oldestIndex, keeps R (learn_loop ifc eh current n i oldest oldestIndex).
Proof.
  induction n as [|n IH]; intros i oldest oldestIndex; cbn [learn_loop]; [apply keeps_ret|].
  assert (Holder : keeps R
            (m <- load_mapping i ;;
             if difftime (Mapping.timeRemembered m) oldest <? 0
             then learn_loop ifc eh current n (i + 1) (Mapping.timeRemembered m) i
             else learn_loop ifc eh current n (i + 1) oldest oldestIndex)).
  { apply keeps_bind; [apply keeps_load_mapping|]. intros m. destruct (_ <? 0); apply IH. }
  destruct (_ || _); [|exact Holder].
  apply keeps_bind; [apply keeps_maccmp|]. intros c.
  destruct (negb _); [|exact Holder].
  apply keeps_bind; [apply keeps_load_ifc_num|]. intros k.
  apply keeps_bind; [apply R_store_any|]. intros _.
  apply keeps_bind; [apply R_store_any|]. intros _. apply keeps_ret.
Qed.

Lemma keeps_learn ifc eh current oldest : keeps R (learn ifc eh current oldest).
Proof.
  apply keeps_bind; [apply keeps_learn_loop|]. intros r.
  destruct (_ =? 1); [|apply keeps_ret].
  apply keeps_bind; [apply keeps_get|]. intros s.
  apply keeps_bind.
  - destruct (_ <? _); [|apply keeps_ret].
    apply keeps_bind; [apply R_next_empty|]. intros _. apply keeps_ret.
  - intros index. apply keeps_bind; [apply R_store_any|]. intros _.
    apply keeps_bind; [apply keeps_load_ifc_num|]. intros k.
    apply keeps_bind; [apply R_store_any|]. intros _. apply R_store_any.
Qed.

Lemma keeps_handle_frame interface frame current oldest :
  keeps R (handle_frame interface frame current oldest).
Proof.
  apply keeps_bind; [apply keeps_get|]. intros s.
  destruct (_ <? _); [apply keeps_abort|]. unfold parse_frame.
  destruct (_ <? _); [apply keeps_ret|].
  apply keeps_bind; [destruct (is_null _); [apply keeps_flood|apply keeps_ret]|]. intros _.
  apply keeps_bind; [apply keeps_learn|]. intros _.
  apply keeps_bind; [apply keeps_find_dest_loop|]. intros d.
  destruct d; [apply keeps_forward_to|apply keeps_flood].
Qed.

End Keeps.

(** ** The second version: [handle_frame] as a hub *)

Lemma load_ifc_num_fault s a :
  at_index (gifc s) a = None -> load_ifc_num (Gifc a) s = (Fault, s, []).
Proof. intros H. unfold load_ifc_num, bind, get, load. rewrite H. reflexivity. Qed.

Lemma at_index_negative {A : Type} (l : list A) (i : Z) : i < 0 -> at_index l i = None.
Proof. intros H. unfold at_index. destruct (Z.leb_spec 0 i); [lia|reflexivity]. Qed.

Lemma at_index_in_range {A : Type} (l : list A) (i : Z) :
  0 <= i < Z.of_nat (length l) -> exists x, at_index l i = Some x.
Proof.
  intros H. destruct (lookup_lt_is_Some_2 l (Z.to_nat i)) as [x Hx]; [lia|].
  exists x. apply at_index_Some. split; [lia|exact Hx].
Qed.

Lemma hub_handle_frame_run s interface frame :
  interfaces_numbered s ->
  1 <= interface <= num_ifc s ->
  sizeof_EthernetHeader <= Z.of_nat (length frame) ->
  Hub.handle_frame interface frame s =
    (Done tt, s, map (message frame) (targets s interface)).
Proof.
  intros Hs Hi Hfull. unfold Hub.handle_frame. erewrite bind_Done; [|reflexivity].
  destruct (Z.ltb_spec (num_ifc s) interface); [lia|].
  unfold Hub.parse_frame.
  destruct (Z.ltb_spec (Z.of_nat (length frame)) sizeof_EthernetHeader); [lia|].
  destruct (at_index_in_range (gifc s) (interface - 1)) as [g Hg];
    [destruct Hs as (Hl & _); lia|].
  erewrite bind_Done; [|apply load_ifc_num_run, Hg].
  unfold flood. erewrite bind_Done; [|reflexivity].
  rewrite (flood_loop_run s (interface - 1) frame Hs) by lia.
  unfold targets. rewrite Z2Nat.id by lia.
  replace (interface - 1 + 1) with interface by lia. reflexivity.
Qed.

(** X1.  The hub never changes the globals: whatever the interface
    number and the frame, and however the call ends, the globals after
    [handle_frame] of the second version are those before. *)
Theorem hub_handle_frame_keeps_globals s interface frame :
  (Hub.handle_frame interface frame s).1.2 = s.
Proof.
  symmetry. revert s. change (keeps eq (Hub.handle_frame interface frame)).
  assert (Ht : forall s1 s2 s3 : state, s1 = s2 -> s2 = s3 -> s1 = s3) by congruence.
  assert (Hr : forall s1 : state, s1 = s1) by reflexivity.
  apply (keeps_bind eq Ht); [apply (keeps_get eq Hr)|]. intros s.
  destruct (_ <? _); [apply (keeps_abort eq Hr)|]. unfold Hub.parse_frame.
  destruct (_ <? _); [apply (keeps_ret eq Hr)|].
  apply (keeps_bind eq Ht); [apply (keeps_load_ifc_num eq Hr Ht)|].
  intros _. apply (keeps_flood eq Hr Ht).
Qed.

(** X2.  How [handle_frame] of the second version ends, for an
    interface number of 16 bits: it aborts above [num_ifc]; else it
    returns on a frame shorter than a header; else, for interface
    number 0, it reads [gifc[-1]] and ends there; else it returns.
    Nothing is written in the first three cases. *)
Theorem hub_handle_frame_outcome s interface frame :
  interfaces_numbered s ->
  0 <= interface ->
  (Hub.handle_frame interface frame s).1.1 =
    (if num_ifc s <? interface then Abort
     else if Z.of_nat (length frame) <? sizeof_EthernetHeader then Done tt
     else if interface =? 0 then Fault
     else Done tt) /\
  (num_ifc s < interface \/ Z.of_nat (length frame) < sizeof_EthernetHeader \/ interface = 0 ->
   (Hub.handle_frame interface frame s).2 = []).
Proof.
  intros Hs Hi.
  destruct (Z.ltb_spec (num_ifc s) interface) as [Habove|Hle].
  { unfold Hub.handle_frame. erewrite bind_Done; [|reflexivity].
    destruct (Z.ltb_spec (num_ifc s) interface); [|lia]. split; reflexivity. }
  destruct (Z.ltb_spec (Z.of_nat (length frame)) sizeof_EthernetHeader) as [Hshort|Hfull].
  { unfold Hub.handle_frame. erewrite bind_Done; [|reflexivity].
    destruct (Z.ltb_spec (num_ifc s) interface); [lia|]. unfold Hub.parse_frame.
    destruct (Z.ltb_spec (Z.of_nat (length frame)) sizeof_EthernetHeader); [|lia].
    split; reflexivity. }
  destruct (Z.eqb_spec interface 0) as [->|Hnz].
  { unfold Hub.handle_frame. erewrite bind_Done; [|reflexivity].
    destruct (Z.ltb_spec (num_ifc s) 0); [lia|]. unfold Hub.parse_frame.
    destruct (Z.ltb_spec (Z.of_nat (length frame)) sizeof_EthernetHeader); [lia|].
    erewrite bind_Fault; [|apply load_ifc_num_fault, at_index_negative; lia].
    split; reflexivity. }
  rewrite hub_handle_frame_run by (assumption || lia). split; [reflexivity|]. lia.
Qed.

Lemma hub_handle_frame_outcome_witness :
  (Hub.handle_frame 0 (Sample.frame broadcast Sample.AA) Sample.s0).1.1 = Fault /\
  (Hub.handle_frame 0 (Sample.frame broadcast Sample.AA) Sample.s0).2 = [].
Proof.
  destruct (hub_handle_frame_outcome Sample.s0 0 (Sample.frame broadcast Sample.AA))
    as [H1 H2].
  - apply interfaces_numbered_s0.
  - lia.
  - split; [exact H1|]. apply H2. right. right. reflexivity.
Defined.

Lemma length_filter_ne_seqZ_out n :
  forall m i, i < m ->
    length (filter (fun k => k <> i) (seqZ m (Z.of_nat n))) = n.
Proof.
  induction n as [|n IH]; intros m i Hi; [reflexivity|].
  rewrite seqZ_cons by lia. replace (Z.pred (Z.of_nat (S n))) with (Z.of_nat n) by lia.
  rewrite filter_cons_True by lia. cbn [length]. rewrite IH by lia. reflexivity.
Qed.

Lemma length_filter_ne_seqZ_in n :
  forall m i, m <= i < m + Z.of_nat n ->
    S (length (filter (fun k => k <> i) (seqZ m (Z.of_nat n)))) = n.
Proof.
  induction n as [|n IH]; intros m i Hi; [lia|].
  rewrite seqZ_cons by lia. replace (Z.pred (Z.of_nat (S n))) with (Z.of_nat n) by lia.
  destruct (Z.eq_dec m i) as [->|Hne].
  - rewrite filter_cons_False by (intros H; apply H; reflexivity).
    rewrite length_filter_ne_seqZ_out by lia. reflexivity.
  - rewrite filter_cons_True by lia. cbn [length]. rewrite IH by lia. reflexivity.
Qed.

Lemma length_message frame k :
  Z.of_nat (length (message frame k)) = Z.of_nat (length frame) + sizeof_GLAB_MessageHeader.
Proof.
  unfold message, htons, sizeof_GLAB_MessageHeader. cbn [app length]. lia.
Qed.

(** X3.  For a frame with a full header from interface [interface] of
    [N], the hub writes [N - 1] messages, each as long as the frame
    plus the four bytes of header; while that length fits 16 bits, the
    size field of each message is its length. *)
Theorem hub_message_count s interface frame :
  interfaces_numbered s ->
  1 <= interface <= num_ifc s ->
  sizeof_EthernetHeader <= Z.of_nat (length frame) ->
  let out := (Hub.handle_frame interface frame s).2 in
  Z.of_nat (length out) = num_ifc s - 1 /\
  Forall (fun msg => Z.of_nat (length msg) = Z.of_nat (length frame) + 4) out /\
  (Z.of_nat (length frame) + 4 < 65536 ->
   Forall (fun msg => exists k payload,
             message_fields msg = Some (Z.of_nat (length msg), k, payload)) out).
Proof.
  intros Hs Hi Hfull. cbn zeta. rewrite hub_handle_frame_run by assumption. cbn [snd].
  split; [|split].
  - rewrite length_map. unfold targets.
    pose proof (length_filter_ne_seqZ_in (Z.to_nat (num_ifc s)) 1 interface) as H.
    rewrite Z2Nat.id in H by lia. lia.
  - apply Forall_forall. intros msg Hmsg. apply elem_of_map in Hmsg as (k & -> & _).
    apply length_message.
  - intros Hfit. apply Forall_forall. intros msg Hmsg.
    apply elem_of_map in Hmsg as (k & -> & Hk). exists k, frame.
    rewrite length_message. apply message_fields_message.
    + unfold sizeof_GLAB_MessageHeader. lia.
    + unfold targets in Hk. apply list_elem_of_filter in Hk as [_ Hk].
      apply elem_of_seqZ in Hk. destruct Hs as (_ & Hn & _). lia.
Qed.

Lemma hub_message_count_witness :
  let out := (Hub.handle_frame 1 (Sample.frame broadcast Sample.AA) Sample.s0).2 in
  Z.of_nat (length out) = 3 - 1 /\
  Forall (fun msg => Z.of_nat (length msg) = 17 + 4) out /\
  (17 + 4 < 65536 ->
   Forall (fun msg => exists k payload,
             message_fields msg = Some (Z.of_nat (length msg), k, payload)) out).
Proof.
  apply (hub_message_count Sample.s0 1 (Sample.frame broadcast Sample.AA)).
  - apply interfaces_numbered_s0.
  - change (1 <= 1 <= 3). lia.
  - vm_compute. discriminate.
Defined.

(** ** [forward_to]: the header for any length and number *)

Lemma htons_fields x :
  256 * Z.shiftr (Z.land x 65535) 8 + Z.land x 255 = x mod 65536 /\
  0 <= Z.shiftr (Z.land x 65535) 8 < 256 /\
  0 <= Z.land x 255 < 256.
Proof.
  change 65535 with (Z.ones 16). change 255 with (Z.ones 8).
  rewrite !Z.land_ones, Z.shiftr_div_pow2 by lia.
  change (2 ^ 16) with 65536. change (2 ^ 8) with 256.
  pose proof (Z.mod_pos_bound x 65536 ltac:(lia)) as H16.
  pose proof (Z.mod_pos_bound x 256 ltac:(lia)) as H8.
  pose proof (Z.div_mod (x mod 65536) 256 ltac:(lia)) as Hdm.
  assert (Hmm : (x mod 65536) mod 256 = x mod 256).
  { apply Z.mod_mod_divide. exists 256. reflexivity. }
  split; [lia|]. split; [|lia].
  split; [apply Z.div_pos; lia|apply Z.div_lt_upper_bound; lia].
Qed.

(** X4.  [forward_to] for [&gifc[a]]: inside the array it writes one
    message and leaves the globals alone; the message is four header
    bytes and the frame, the header holding the length of the message
    and the interface number, each reduced modulo 65536 and stored
    high byte first.  Outside the array the read of the interface
    number ends the call with nothing written. *)
Theorem forward_to_message s a frame :
  (forall g, at_index (gifc s) a = Some g ->
     exists msg,
       forward_to (Gifc a) frame s = (Done tt, s, [msg]) /\
       message_fields msg =
         Some ((Z.of_nat (length frame) + 4) mod 65536,
               Interface.ifc_num g mod 65536, frame) /\
       drop 4 msg = frame /\
       Forall (fun b => 0 <= b < 256) (take 4 msg)) /\
  (at_index (gifc s) a = None -> forward_to (Gifc a) frame s = (Fault, s, [])).
Proof.
  split.
  - intros g Hg. eexists. split; [apply forward_to_run, Hg|].
    unfold message, message_fields, htons, sizeof_GLAB_MessageHeader. cbn [app take drop].
    pose proof (htons_fields (Z.of_nat (length frame) + 4)) as (H1 & H2 & H3).
    pose proof (htons_fields (Interface.ifc_num g)) as (H4 & H5 & H6).
    rewrite H1, H4. split; [reflexivity|]. split; [reflexivity|].
    repeat (constructor; [assumption|]). constructor.
  - intros Hg. unfold forward_to. apply bind_Fault, load_ifc_num_fault, Hg.
Qed.

Lemma forward_to_message_witness :
  exists msg,
    forward_to (Gifc 2) Sample.short_frame Sample.s0 = (Done tt, Sample.s0, [msg]) /\
    message_fields msg = Some (14, 3, Sample.short_frame) /\
    drop 4 msg = Sample.short_frame /\
    Forall (fun b => 0 <= b < 256) (take 4 msg).
Proof.
  destruct (forward_to_message Sample.s0 2 Sample.short_frame) as [H _].
  apply (H (Interface.mk [0; 0; 0; 0; 0; 0] 3)). reflexivity.
Defined.

(** ** [handle_mac] *)

Lemma handle_mac_run s k mac :
  1 <= k <= num_ifc s ->
  Z.of_nat (length (gifc s)) = num_ifc s ->
  handle_mac k mac s = (Done tt, announced s k mac, []).
Proof.
  intros Hk Hlen. unfold handle_mac, announced. erewrite bind_Done; [|reflexivity].
  destruct (Z.ltb_spec (num_ifc s) k); [lia|].
  destruct (at_index_in_range (gifc s) (k - 1)) as [g Hg]; [lia|].
  rewrite Hg. cbn [load]. erewrite bind_Done; [|reflexivity].
  rewrite set_index_Some by lia. reflexivity.
Qed.

Lemma ifc_nums_announced s k mac :
  map Interface.ifc_num (gifc (announced s k mac)) = map Interface.ifc_num (gifc s).
Proof.
  unfold announced. cbn [gifc].
  destruct (at_index (gifc s) (k - 1)) as [g|] eqn:Hg; [|reflexivity].
  apply at_index_Some in Hg as [_ Hg].
  change (Interface.ifc_num <$> <[Z.to_nat (k - 1) := Interface.mk mac (Interface.ifc_num g)]> (gifc s)
          = Interface.ifc_num <$> gifc s).
  rewrite list_fmap_insert. apply list_insert_id.
  rewrite list_lookup_fmap, Hg. reflexivity.
Qed.

Lemma interfaces_numbered_ifc_nums s s' :
  num_ifc s' = num_ifc s ->
  map Interface.ifc_num (gifc s') = map Interface.ifc_num (gifc s) ->
  interfaces_numbered s -> interfaces_numbered s'.
Proof.
  intros Hn Hmap (Hlen & Hb & Hnum). unfold interfaces_numbered. rewrite Hn.
  assert (Hl : length (gifc s') = length (gifc s)).
  { rewrite <- (length_map Interface.ifc_num (gifc s')), Hmap. apply length_map. }
  split; [lia|]. split; [exact Hb|]. intros a g' Hg'.
  assert (H : (Interface.ifc_num <$> gifc s') !! a = Some (Interface.ifc_num g')).
  { rewrite list_lookup_fmap, Hg'. reflexivity. }
  change (Interface.ifc_num <$> gifc s') with (map Interface.ifc_num (gifc s')) in H.
  rewrite Hmap in H.
  change (map Interface.ifc_num (gifc s)) with (Interface.ifc_num <$> gifc s) in H.
  rewrite list_lookup_fmap in H.
  destruct (gifc s !! a) as [g|] eqn:Hg; [|discriminate].
  injection H as <-. apply (Hnum a g Hg).
Qed.

(** X5.  [handle_mac] for an interface number in 1..N returns with
    nothing written; afterwards the interface holds the announced MAC,
    every other interface is as before, every interface keeps its
    number, and the table and its fill mark are untouched. *)
Theorem handle_mac_effect s k mac :
  1 <= k <= num_ifc s ->
  Z.of_nat (length (gifc s)) = num_ifc s ->
  exists s',
    handle_mac k mac s = (Done tt, s', []) /\
    Interface.mac <$> at_index (gifc s') (k - 1) = Some mac /\
    (forall a, a <> k - 1 -> at_index (gifc s') a = at_index (gifc s) a) /\
    map Interface.ifc_num (gifc s') = map Interface.ifc_num (gifc s) /\
    num_ifc s' = num_ifc s /\
    mappings s' = mappings s /\
    mappings_next_empty s' = mappings_next_empty s.
Proof.
  intros Hk Hlen. exists (announced s k mac).
  split; [apply handle_mac_run; assumption|].
  split; [|split; [|split; [apply ifc_nums_announced|repeat split]]].
  - unfold announced. cbn [gifc].
    destruct (at_index_in_range (gifc s) (k - 1)) as [g Hg]; [lia|]. rewrite Hg.
    rewrite (proj2 (at_index_Some _ _ (Interface.mk mac (Interface.ifc_num g))));
      [reflexivity|].
    split; [lia|]. apply list_lookup_insert_eq. lia.
  - intros a Ha. unfold announced. cbn [gifc].
    destruct (at_index (gifc s) (k - 1)) as [g|]; [|reflexivity].
    unfold at_index. destruct (Z.leb_spec 0 a); [|reflexivity].
    apply list_lookup_insert_ne. lia.
Qed.

Lemma handle_mac_effect_witness :
  exists s',
    handle_mac 2 Sample.AA Sample.s0 = (Done tt, s', []) /\
    Interface.mac <$> at_index (gifc s') (2 - 1) = Some Sample.AA /\
    (forall a, a <> 2 - 1 -> at_index (gifc s') a = at_index (gifc Sample.s0) a) /\
    map Interface.ifc_num (gifc s') = map Interface.ifc_num (gifc Sample.s0) /\
    num_ifc s' = num_ifc Sample.s0 /\
    mappings s' = mappings Sample.s0 /\
    mappings_next_empty s' = mappings_next_empty Sample.s0.
Proof.
  apply (handle_mac_effect Sample.s0 2 Sample.AA).
  - change (1 <= 2 <= 3). lia.
  - reflexivity.
Defined.

(** X6.  Announcements compose as stores do: of two announcements for
    the same interface the later one stands, and announcements for two
    different interfaces give the same globals in either order. *)
Theorem handle_mac_compose s k j mac1 mac2 :
  1 <= k <= num_ifc s ->
  1 <= j <= num_ifc s ->
  Z.of_nat (length (gifc s)) = num_ifc s ->
  (handle_mac k mac1 ;;; handle_mac k mac2) s = handle_mac k mac2 s /\
  (k <> j ->
   (handle_mac k mac1 ;;; handle_mac j mac2) s =
   (handle_mac j mac2 ;;; handle_mac k mac1) s).
Proof.
  intros Hk Hj Hlen.
  assert (Hlen' : forall i m, 1 <= i <= num_ifc s ->
            Z.of_nat (length (gifc (announced s i m))) = num_ifc (announced s i m)).
  { intros i m Hi. unfold announced. cbn [gifc num_ifc].
    destruct (at_index (gifc s) (i - 1)); [rewrite length_insert|]; exact Hlen. }
  destruct (at_index_in_range (gifc s) (k - 1)) as [gk Hgk]; [lia|].
  destruct (at_index_in_range (gifc s) (j - 1)) as [gj Hgj]; [lia|].
  pose proof (proj1 (at_index_Some _ _ _) Hgk) as [_ Hgk'].
  pose proof (proj1 (at_index_Some _ _ _) Hgj) as [_ Hgj'].
  split.
  - erewrite bind_Done; [|apply handle_mac_run; assumption].
    rewrite !handle_mac_run by (auto; cbn; lia).
    f_equal. f_equal. unfold announced. cbn [gifc num_ifc mappings mappings_next_empty].
    rewrite Hgk. erewrite (proj2 (at_index_Some _ _ _));
      [|split; [lia|apply list_lookup_insert_eq; lia]].
    cbn [Interface.ifc_num]. rewrite list_insert_insert_eq. reflexivity.
  - intros Hne.
    erewrite bind_Done; [|apply handle_mac_run; assumption].
    erewrite (bind_Done (handle_mac j mac2)); [|apply handle_mac_run; assumption].
    rewrite !handle_mac_run by (auto; cbn; lia).
    f_equal. f_equal. unfold announced. cbn [gifc num_ifc mappings mappings_next_empty].
    rewrite Hgk, Hgj.
    erewrite (proj2 (at_index_Some _ (j - 1) gj));
      [|split; [lia|rewrite list_lookup_insert_ne by lia; exact Hgj']].
    erewrite (proj2 (at_index_Some _ (k - 1) gk));
      [|split; [lia|rewrite list_lookup_insert_ne by lia; exact Hgk']].
    rewrite list_insert_insert_ne by lia. reflexivity.
Qed.

Lemma handle_mac_compose_witness :
  (handle_mac 1 Sample.AA ;;; handle_mac 1 Sample.BB) Sample.s0 =
    handle_mac 1 Sample.BB Sample.s0 /\
  (1 <> 3 ->
   (handle_mac 1 Sample.AA ;;; handle_mac 3 Sample.BB) Sample.s0 =
   (handle_mac 3 Sample.BB ;;; handle_mac 1 Sample.AA) Sample.s0).
Proof.
  apply (handle_mac_compose Sample.s0 1 3 Sample.AA Sample.BB).
  - change (1 <= 1 <= 3). lia.
  - change (1 <= 3 <= 3). lia.
  - reflexivity.
Defined.

(** ** From [main] to the first frame *)

Lemma interfaces_numbered_main n table :
  Z.of_nat n < 65536 -> interfaces_numbered (main_state n table).
Proof.
  intros Hn. unfold interfaces_numbered, main_state. cbn [gifc num_ifc].
  rewrite length_map, length_seq. split; [reflexivity|]. split; [exact Hn|].
  intros a g Hg.
  change (map ?f ?l) with (f <$> l) in Hg. rewrite list_lookup_fmap in Hg.
  destruct (seq 1 n !! a) as [i|] eqn:Hi; [|discriminate].
  apply lookup_seq in Hi as [-> Ha]. injection Hg as <-. cbn [Interface.ifc_num].
  rewrite Z.mod_small; lia.
Qed.

Lemma interfaces_numbered_announced s k mac :
  interfaces_numbered s -> interfaces_numbered (announced s k mac).
Proof.
  apply interfaces_numbered_ifc_nums; [reflexivity|apply ifc_nums_announced].
Qed.

Lemma announce_all_run l :
  forall s,
    interfaces_numbered s ->
    Forall (fun p => 1 <= p.1 <= num_ifc s) l ->
    exists s',
      announce_all l s = (Done tt, s', []) /\
      interfaces_numbered s' /\
      num_ifc s' = num_ifc s /\
      mappings s' = mappings s /\
      mappings_next_empty s' = mappings_next_empty s.
Proof.
  induction l as [|[k mac] l IH]; intros s Hs Hl.
  - exists s. repeat split; apply Hs.
  - apply Forall_cons in Hl as [Hk Hl]. cbn [fst] in Hk.
    destruct (IH (announced s k mac)) as (s' & Hrun & Hs' & Hn & Hm & He).
    + apply interfaces_numbered_announced, Hs.
    + exact Hl.
    + exists s'. cbn [announce_all].
      erewrite bind_Done; [|apply handle_mac_run; [exact Hk|apply Hs]].
      split; [exact Hrun|]. split; [exact Hs'|]. split; [exact Hn|].
      split; [exact Hm|exact He].
Qed.

(** X7.  From the globals [main] sets up for N < 65536 interfaces,
    after any announcements of MACs for interfaces in 1..N, the hub
    sends a frame with a full header from interface [interface] to
    the other interfaces, one message each, by increasing number: the
    MACs announced play no part, and the table storage is untouched. *)
Theorem hub_after_startup n table l interface frame :
  Z.of_nat n < 65536 ->
  Forall (fun p => 1 <= p.1 <= Z.of_nat n) l ->
  1 <= interface <= Z.of_nat n ->
  sizeof_EthernetHeader <= Z.of_nat (length frame) ->
  exists s',
    (announce_all l ;;; Hub.handle_frame interface frame) (main_state n table) =
      (Done tt, s',
       map (message frame) (filter (fun k => k <> interface) (seqZ 1 (Z.of_nat n)))) /\
    mappings s' = table.
Proof.
  intros Hn Hl Hi Hfull.
  destruct (announce_all_run l (main_state n table)) as (s' & Hrun & Hs' & Hnum & Hm & _).
  - apply interfaces_numbered_main, Hn.
  - exact Hl.
  - exists s'. erewrite bind_Done; [|exact Hrun].
    rewrite hub_handle_frame_run; [|exact Hs'|rewrite Hnum; exact Hi|exact Hfull].
    unfold targets. rewrite Hnum. split; [reflexivity|exact Hm].
Qed.

Lemma hub_after_startup_witness :
  exists s',
    (announce_all [(2, Sample.AA); (1, Sample.BB); (2, Sample.BB)] ;;;
     Hub.handle_frame 2 (Sample.frame broadcast Sample.AA))
      (main_state 3 (replicate 10 Sample.free_slot)) =
      (Done tt, s',
       map (message (Sample.frame broadcast Sample.AA))
           (filter (fun k => k <> 2) (seqZ 1 (Z.of_nat 3)))) /\
    mappings s' = replicate 10 Sample.free_slot.
Proof.
  apply hub_after_startup.
  - cbn. lia.
  - apply (bool_decide_unpack (Forall _ _)). vm_compute. exact I.
  - cbn. lia.
  - vm_compute. discriminate.
Defined.

(** ** [handle_control] on any buffer *)

(** X8.  For a length and a buffer within [size_t], [handle_control]
    returns exactly when [1 <= cmd_len <= ] the size of the buffer;
    otherwise its store falls outside the buffer ([cmd_len = 0] is
    index [SIZE_MAX]) and the call ends there.  In no case are the
    globals changed or anything written to standard output. *)
Theorem handle_control_outcome s cmd cmd_len :
  0 <= cmd_len < 2 ^ 64 ->
  Z.of_nat (length cmd) < 2 ^ 64 ->
  let r := handle_control cmd cmd_len s in
  r.1.2 = s /\ r.2 = [] /\
  ((exists v, r.1.1 = Done v) <-> 1 <= cmd_len <= Z.of_nat (length cmd)) /\
  (r.1.1 = Fault <-> ~ 1 <= cmd_len <= Z.of_nat (length cmd)).
Proof.
  intros Hc Hb. cbn zeta. unfold handle_control.
  destruct (Z.eq_dec cmd_len 0) as [->|Hnz].
  - change ((0 - 1) mod 2 ^ 64) with (2 ^ 64 - 1).
    rewrite set_index_None by lia. cbn.
    split; [reflexivity|]. split; [reflexivity|]. split; split; try lia.
    + intros [v Hv]. discriminate.
    + reflexivity.
  - rewrite Z.mod_small by lia.
    destruct (Z.le_gt_cases cmd_len (Z.of_nat (length cmd))) as [Hin|Hout].
    + rewrite set_index_Some by lia. cbn.
      split; [reflexivity|]. split; [reflexivity|]. split; split; try lia.
      * intros _. eexists. reflexivity.
      * discriminate.
    + rewrite set_index_None by lia. cbn.
      split; [reflexivity|]. split; [reflexivity|]. split; split; try lia.
      * intros [v Hv]. discriminate.
      * reflexivity.
Qed.

Lemma handle_control_outcome_witness :
  let r := handle_control [104; 105; 10] 0 Sample.s0 in
  r.1.2 = Sample.s0 /\ r.2 = [] /\
  ((exists v, r.1.1 = Done v) <-> 1 <= 0 <= Z.of_nat (length [104; 105; 10])) /\
  (r.1.1 = Fault <-> ~ 1 <= 0 <= Z.of_nat (length [104; 105; 10])).
Proof.
  apply (handle_control_outcome Sample.s0 [104; 105; 10] 0).
  - lia.
  - cbn. lia.
Defined.

Lemma c_string_take_nul cmd n :
  (n < length cmd)%nat ->
  c_string (<[n := 0]> cmd) = c_string (take n cmd).
Proof.
  revert n. induction cmd as [|b cmd IH]; intros n Hn; [cbn in Hn; lia|].
  destruct n as [|n]; [reflexivity|]. cbn [take c_string]. cbn [insert list_insert].
  cbn [c_string]. destruct (b =? 0); [reflexivity|].
  f_equal. apply IH. cbn in Hn. lia.
Qed.

Lemma c_string_no_nul buf : Forall (fun b => b <> 0) (c_string buf).
Proof.
  induction buf as [|b buf IH]; cbn [c_string]; [constructor|].
  destruct (Z.eqb_spec b 0); [constructor|]. constructor; assumption.
Qed.

Lemma c_string_length buf : (length (c_string buf) <= length buf)%nat.
Proof.
  induction buf as [|b buf IH]; cbn [c_string length]; [lia|].
  destruct (b =? 0); cbn [length]; lia.
Qed.

(** X9.  The text [handle_control] logs for a command of [cmd_len]
    bytes lies within the command: it is the bytes before the first
    NUL of the first [cmd_len - 1] bytes of the buffer, so at most
    [cmd_len - 1] bytes, none of them NUL, whatever follows in the
    buffer. *)
Theorem handle_control_log_within_command s cmd cmd_len :
  1 <= cmd_len ->
  cmd_len <= Z.of_nat (length cmd) ->
  cmd_len < 2 ^ 64 ->
  exists cmd' text,
    handle_control cmd cmd_len s = (Done (cmd', text), s, []) /\
    text = c_string (take (Z.to_nat (cmd_len - 1)) cmd) /\
    Z.of_nat (length text) <= cmd_len - 1 /\
    Forall (fun b => b <> 0) text.
Proof.
  intros H1 H2 H3. unfold handle_control.
  rewrite Z.mod_small by lia. rewrite set_index_Some by lia.
  eexists _, _. split; [reflexivity|].
  rewrite c_string_take_nul by lia. split; [reflexivity|]. split.
  - pose proof (c_string_length (take (Z.to_nat (cmd_len - 1)) cmd)) as Hl.
    rewrite length_take in Hl. lia.
  - apply c_string_no_nul.
Qed.

Lemma handle_control_log_within_command_witness :
  exists cmd' text,
    handle_control [104; 105; 10; 120; 121] 3 Sample.s0 = (Done (cmd', text), Sample.s0, []) /\
    text = c_string (take (Z.to_nat (3 - 1)) [104; 105; 10; 120; 121]) /\
    Z.of_nat (length text) <= 3 - 1 /\
    Forall (fun b => b <> 0) text.
Proof.
  apply (handle_control_log_within_command Sample.s0 [104; 105; 10; 120; 121] 3).
  - lia.
  - cbn. lia.
  - lia.
Defined.

(** ** The first version: [handle_frame] on any input *)

Lemma store_mapping_same_table_size i f : keeps same_table_size (store_mapping i f).
Proof.
  intros s. unfold store_mapping, bind, get, load.
  destruct (at_index (mappings s) i) as [m|]; cbn; [|repeat split].
  unfold set_index.
  destruct ((0 <=? i) && (i <? Z.of_nat (length (mappings s)))); cbn; [|repeat split].
  split; [split; reflexivity|]. apply length_insert.
Qed.

Lemma same_table_size_trans s1 s2 s3 :
  same_table_size s1 s2 -> same_table_size s2 s3 -> same_table_size s1 s3.
Proof. unfold same_table_size, same_interfaces. intros H1 H2. intuition congruence. Qed.

Lemma same_table_size_refl s : same_table_size s s.
Proof. repeat split. Qed.

(** X10.  How [handle_frame] of the first version ends, on any
    globals and any input: it aborts above [num_ifc]; else it returns
    on a frame shorter than a header; else it does not return but
    ends in a fault (an access through a null pointer or outside an
    object).  Nothing is ever written to standard output, and the
    interfaces and the size of the table storage are never changed. *)
Theorem handle_frame_outcome s interface frame current oldest :
  let r := handle_frame interface frame current oldest s in
  r.1.1 = (if num_ifc s <? interface then Abort
           else if Z.of_nat (length frame) <? sizeof_EthernetHeader then Done tt
           else Fault) /\
  r.2 = [] /\
  same_table_size s r.1.2.
Proof.
  cbn zeta. split; [|split].
  - unfold handle_frame. erewrite bind_Done; [|reflexivity].
    destruct (num_ifc s <? interface); [reflexivity|].
    destruct (Z.ltb_spec (Z.of_nat (length frame)) sizeof_EthernetHeader) as [Hs|Hl].
    + unfold parse_frame.
      destruct (Z.ltb_spec (Z.of_nat (length frame)) sizeof_EthernetHeader); [reflexivity|lia].
    + destruct (parse_frame_full_header (Gifc (interface - 1)) frame current oldest s Hl)
        as [s' ->]. reflexivity.
  - unfold handle_frame. erewrite bind_Done; [|reflexivity].
    destruct (num_ifc s <? interface); [reflexivity|].
    destruct (Z.lt_ge_cases (Z.of_nat (length frame)) sizeof_EthernetHeader) as [Hs|Hl].
    + unfold parse_frame.
      destruct (Z.ltb_spec (Z.of_nat (length frame)) sizeof_EthernetHeader); [reflexivity|lia].
    + destruct (parse_frame_full_header (Gifc (interface - 1)) frame current oldest s Hl)
        as [s' ->]. reflexivity.
  - apply (keeps_handle_frame same_table_size same_table_size_refl same_table_size_trans).
    + apply store_mapping_same_table_size.
    + intros n s0. repeat split.
Qed.

Lemma load_ifc_num_cases p s :
  (exists k, load_ifc_num p s = (Done k, s, [])) \/ load_ifc_num p s = (Fault, s, []).
Proof.
  destruct p; try (right; reflexivity).
  destruct (at_index (gifc s) a) as [g|] eqn:Hg.
  - left. eexists. apply load_ifc_num_run, Hg.
  - right. apply load_ifc_num_fault, Hg.
Qed.

(** The three stores that record the sender, through any pointer:
    either the interface number is read and the sender recorded, or
    the read ends the call after the time of the slot has been
    written. *)
Lemma record_cases s ifc index m sender current :
  0 <= index ->
  mappings s !! Z.to_nat index = Some m ->
  let record :=
    (store_mapping index
       (fun m => Mapping.mk (Mapping.mac m) (Mapping.ifc_num m) current) ;;;
     k <- load_ifc_num ifc ;;
     store_mapping index
       (fun m => Mapping.mk (Mapping.mac m) k (Mapping.timeRemembered m)) ;;;
     store_mapping index
       (fun m => Mapping.mk sender (Mapping.ifc_num m) (Mapping.timeRemembered m))) in
  (exists k,
     record s =
       (Done tt,
        mkState (num_ifc s) (gifc s)
                (<[Z.to_nat index := Mapping.mk sender k current]> (mappings s))
                (mappings_next_empty s), [])) \/
  record s =
    (Fault,
     mkState (num_ifc s) (gifc s)
             (<[Z.to_nat index := Mapping.mk (Mapping.mac m) (Mapping.ifc_num m) current]>
                (mappings s))
             (mappings_next_empty s), []).
Proof.
  intros Hi Hm. cbn zeta. pose proof (lookup_lt_Some _ _ _ Hm) as Hlt.
  erewrite bind_Done; [|apply store_mapping_run; eassumption].
  match goal with
  | |- context [bind (load_ifc_num ifc) _ ?s2] =>
      destruct (load_ifc_num_cases ifc s2) as [[k Hk]|Hk]
  end.
  - left. exists k. erewrite bind_Done; [|exact Hk].
    erewrite bind_Done;
      [|apply store_mapping_run; [exact Hi|cbn; apply list_lookup_insert_eq; exact Hlt]].
    erewrite store_mapping_run;
      [|exact Hi|cbn; apply list_lookup_insert_eq; rewrite length_insert; exact Hlt].
    cbn. rewrite !list_insert_insert_eq. reflexivity.
  - right. erewrite bind_Fault; [|exact Hk]. reflexivity.
Qed.

(** Step 1 on an allocated table, through any pointer. *)
Lemma learn_cases s ifc eh current oldest :
  table_allocated s ->
  (exists k,
     learn ifc eh current oldest s =
       (Done tt, learned s (learn_index s oldest) (src eh) k current, [])) \/
  (exists m, at_index (mappings s) (learn_index s oldest) = Some m /\
     learn ifc eh current oldest s =
       (Fault,
        learned s (learn_index s oldest) (Mapping.mac m) (Mapping.ifc_num m) current,
        [])).
Proof.
  intros Hs. pose proof (learn_index_in_table s oldest Hs) as Hidx.
  destruct (at_index_in_range (mappings s) (learn_index s oldest)) as [m Hm];
    [destruct Hs as [-> _]; lia|].
  pose proof (proj1 (at_index_Some _ _ _) Hm) as [_ Hm'].
  assert (Hloop : learn_loop ifc eh current (Z.to_nat mappings_size) 0 oldest 0 s =
                    (Done (1, oldest_scan (mappings s) 0 oldest 0), s, [])).
  { rewrite learn_loop_run; [|lia|destruct Hs as [-> _]; cbn; lia].
    destruct Hs as [Hlen _]. rewrite <- Hlen, drop_0, firstn_all. reflexivity. }
  unfold learn. erewrite bind_Done; [|exact Hloop]. cbn [fst snd Z.eqb Pos.eqb].
  erewrite bind_Done; [|reflexivity].
  unfold learn_index, learned in *.
  destruct (Z.ltb_spec (mappings_next_empty s) mappings_size) as [Hlt|Hge].
  - erewrite bind_Done; [|reflexivity].
    destruct (record_cases
                (mkState (num_ifc s) (gifc s) (mappings s) (mappings_next_empty s + 1))
                ifc (mappings_next_empty s) m (src eh) current) as [[k Hk]|Hk];
      [lia|exact Hm'|left; exists k; exact Hk|right; exists m; split; [exact Hm|exact Hk]].
  - erewrite bind_Done; [|reflexivity].
    destruct (record_cases s ifc (oldest_scan (mappings s) 0 oldest 0) m (src eh) current)
      as [[k Hk]|Hk];
      [lia|exact Hm'|left; exists k; exact Hk|right; exists m; split; [exact Hm|exact Hk]].
Qed.

Lemma parse_frame_full_header_state ifc frame current oldest s :
  sizeof_EthernetHeader <= Z.of_nat (length frame) ->
  (parse_frame ifc frame current oldest s).1.2 =
  (learn ifc (read_header frame) current oldest s).1.2.
Proof.
  intros Hlen. unfold parse_frame.
  destruct (Z.ltb_spec (Z.of_nat (length frame)) sizeof_EthernetHeader); [lia|].
  cbn [is_null]. rewrite (bind_Done _ _ s tt s eq_refl).
  unfold bind at 1.
  destruct (learn ifc (read_header frame) current oldest s) as [[[[]| |] s1] out1];
    [|reflexivity|reflexivity].
  rewrite (bind_Fault _ _ s1 s1 [] (find_dest_fault _ s1)). reflexivity.
Qed.

(** X11.  [handle_frame] of the first version keeps the table within
    its storage: from globals with the table allocated and the fill
    mark within it, the globals it leaves are such again, whatever the
    interface number, the frame and the clock, and however the call
    ends. *)
Theorem handle_frame_keeps_table_allocated s interface frame current oldest :
  table_allocated s ->
  table_allocated (handle_frame interface frame current oldest s).1.2.
Proof.
  intros Hs. unfold handle_frame. erewrite bind_Done; [|reflexivity].
  destruct (num_ifc s <? interface); [exact Hs|].
  destruct (Z.lt_ge_cases (Z.of_nat (length frame)) sizeof_EthernetHeader) as [Hshort|Hfull].
  - unfold parse_frame.
    destruct (Z.ltb_spec (Z.of_nat (length frame)) sizeof_EthernetHeader); [exact Hs|lia].
  - rewrite parse_frame_full_header_state by exact Hfull.
    destruct (learn_cases s (Gifc (interface - 1)) (read_header frame) current oldest Hs)
      as [(k & ->)|(m & _ & ->)]; apply table_allocated_learned, Hs.
Qed.

Lemma handle_frame_keeps_table_allocated_witness :
  table_allocated
    (handle_frame 0 (Sample.frame broadcast Sample.AA) 100 100 Sample.s0).1.2.
Proof.
  apply handle_frame_keeps_table_allocated. apply table_allocated_s0.
Defined.

(** ** The first version: what step 1 does to lookups and times *)

Lemma find_insert_fresh {A : Type} (p : A -> bool) (l : list A) (v : nat) (x : A) :
  find p l = None -> p x = true -> (v < length l)%nat ->
  find p (<[v := x]> l) = Some x.
Proof.
  revert v. induction l as [|y l IH]; intros v Hnone Hx Hv; [cbn in Hv; lia|].
  cbn [find] in Hnone. destruct (p y) eqn:Hy; [discriminate|].
  destruct v as [|v]; cbn [insert list_insert find].
  - rewrite Hx. reflexivity.
  - rewrite Hy. apply IH; [exact Hnone|exact Hx|cbn in Hv; lia].
Qed.

(** X12.  A sender the table does not hold is found after step 1, at
    the interface the frame came in on: with a slot free it is
    appended, and on a full table it takes the place of the slot
    overwritten. *)
Theorem learn_new_sender_lookup s a g eh current oldest :
  table_allocated s ->
  at_index (gifc s) a = Some g ->
  table_lookup s (src eh) = None ->
  exists s',
    learn (Gifc a) eh current oldest s = (Done tt, s', []) /\
    table_lookup s' (src eh) = Some (Interface.ifc_num g).
Proof.
  intros Hs Hg Hnone. eexists. split; [apply learn_run; eassumption|].
  unfold table_lookup in *.
  destruct (find _ (entries s)) as [e|] eqn:Hfind; [discriminate|].
  destruct (Z.lt_ge_cases (mappings_next_empty s) mappings_size) as [Hfree|Hfull].
  - rewrite learn_index_free by exact Hfree. rewrite entries_learned by assumption.
    rewrite find_app_None by exact Hfind. cbn [find Mapping.mac].
    rewrite bool_decide_eq_true_2 by reflexivity. reflexivity.
  - assert (Hne : mappings_next_empty s = mappings_size) by (destruct Hs as [_ ?]; lia).
    pose proof (learn_index_in_table s oldest Hs) as Hidx.
    rewrite entries_full.
    + rewrite (entries_full s Hs Hne) in Hfind. unfold learned. cbn [mappings].
      erewrite find_insert_fresh; [reflexivity|exact Hfind| |].
      * cbn [Mapping.mac]. apply bool_decide_eq_true_2. reflexivity.
      * destruct Hs as [-> _]. lia.
    + apply table_allocated_learned, Hs.
    + unfold learned. cbn [mappings_next_empty].
      destruct (Z.ltb_spec (mappings_next_empty s) mappings_size); lia.
Qed.

Lemma learn_new_sender_lookup_witness :
  exists s',
    learn (Gifc 2) (read_header (Sample.frame broadcast Sample.AA)) 200 200 Sample.full =
      (Done tt, s', []) /\
    table_lookup s' Sample.AA = Some 3.
Proof.
  apply (learn_new_sender_lookup Sample.full 2 (Interface.mk [0; 0; 0; 0; 0; 0] 3)
           (read_header (Sample.frame broadcast Sample.AA)) 200 200).
  - apply table_allocated_full.
  - reflexivity.
  - reflexivity.
Defined.

(** X13.  While a slot is free, step 1 does not disturb the other
    addresses: the lookup of any MAC other than the sender answers
    after step 1 what it answered before. *)
Theorem learn_other_lookup_unchanged s a g eh current oldest m :
  table_allocated s ->
  at_index (gifc s) a = Some g ->
  mappings_next_empty s < mappings_size ->
  m <> src eh ->
  exists s',
    learn (Gifc a) eh current oldest s = (Done tt, s', []) /\
    table_lookup s' m = table_lookup s m.
Proof.
  intros Hs Hg Hfree Hm. eexists. split; [apply learn_run; eassumption|].
  rewrite learn_index_free by exact Hfree.
  unfold table_lookup. rewrite entries_learned by assumption.
  destruct (find _ (entries s)) as [e|] eqn:Hfind.
  - erewrite find_app_Some by exact Hfind. reflexivity.
  - rewrite find_app_None by exact Hfind. cbn [find Mapping.mac].
    rewrite bool_decide_eq_false_2 by congruence. reflexivity.
Qed.

Lemma learn_other_lookup_unchanged_witness :
  exists s',
    learn (Gifc 1) (read_header (Sample.frame broadcast Sample.AA)) 200 200
          (Sample.s1 Sample.BB 3 50) = (Done tt, s', []) /\
    table_lookup s' Sample.BB = table_lookup (Sample.s1 Sample.BB 3 50) Sample.BB.
Proof.
  apply (learn_other_lookup_unchanged (Sample.s1 Sample.BB 3 50) 1
           (Interface.mk [0; 0; 0; 0; 0; 0] 2)).
  - apply table_allocated_s1.
  - reflexivity.
  - change (1 < 10). lia.
  - vm_compute. discriminate.
Defined.

(** X14.  Step 1 keeps the times of the table behind the clock: if no
    slot holds a time later than [t] and the reading stored is not
    later than [t] either, then after step 1 no slot does. *)
Theorem learn_keeps_times_behind_clock s a g eh current oldest t :
  table_allocated s ->
  at_index (gifc s) a = Some g ->
  Forall (fun m => Mapping.timeRemembered m <= t) (mappings s) ->
  current <= t ->
  exists s',
    learn (Gifc a) eh current oldest s = (Done tt, s', []) /\
    Forall (fun m => Mapping.timeRemembered m <= t) (mappings s').
Proof.
  intros Hs Hg Hold Hc. eexists. split; [apply learn_run; eassumption|].
  unfold learned. cbn [mappings]. apply Forall_insert; [exact Hold|exact Hc].
Qed.

Lemma learn_keeps_times_behind_clock_witness :
  exists s',
    learn (Gifc 2) (read_header (Sample.frame broadcast Sample.AA)) 200 200 Sample.full =
      (Done tt, s', []) /\
    Forall (fun m => Mapping.timeRemembered m <= 200) (mappings s').
Proof.
  apply (learn_keeps_times_behind_clock Sample.full 2 (Interface.mk [0; 0; 0; 0; 0; 0] 3)).
  - apply table_allocated_full.
  - reflexivity.
  - apply (bool_decide_unpack (Forall _ _)). vm_compute. exact I.
  - lia.
Defined.

Lemma oldest_scan_none_older l :
  forall i oldest oldestIndex,
    Forall (fun m => oldest <= Mapping.timeRemembered m) l ->
    oldest_scan l i oldest oldestIndex = oldestIndex.
Proof.
  induction l as [|m l IH]; intros i oldest oldestIndex H; [reflexivity|].
  apply Forall_cons in H as [Hm Hl]. cbn [oldest_scan]. unfold difftime.
  destruct (Z.ltb_spec (Mapping.timeRemembered m - oldest) 0); [lia|].
  apply IH, Hl.
Qed.

(** X15.  On a full table with no slot older than the second clock
    reading (all recorded in the same second, or the clock set back),
    step 1 overwrites slot 0, whatever the times of the slots. *)
Theorem eviction_without_older_slot s a g eh current oldest :
  table_allocated s ->
  at_index (gifc s) a = Some g ->
  mappings_next_empty s = mappings_size ->
  Forall (fun m => oldest <= Mapping.timeRemembered m) (mappings s) ->
  exists s',
    learn (Gifc a) eh current oldest s = (Done tt, s', []) /\
    mappings s' =
      <[0%nat := Mapping.mk (src eh) (Interface.ifc_num g) current]> (mappings s) /\
    mappings_next_empty s' = mappings_size.
Proof.
  intros Hs Hg Hfull Hold. eexists. split; [apply learn_run; eassumption|].
  unfold learned, learn_index. cbn [mappings mappings_next_empty].
  destruct (Z.ltb_spec (mappings_next_empty s) mappings_size); [lia|].
  rewrite oldest_scan_none_older by exact Hold. split; [reflexivity|exact Hfull].
Qed.

Lemma eviction_without_older_slot_witness :
  exists s',
    learn (Gifc 2) (read_header (Sample.frame broadcast Sample.AA)) 90 90 Sample.full =
      (Done tt, s', []) /\
    mappings s' = <[0%nat := Mapping.mk Sample.AA 3 90]> (mappings Sample.full) /\
    mappings_next_empty s' = mappings_size.
Proof.
  apply (eviction_without_older_slot Sample.full 2 (Interface.mk [0; 0; 0; 0; 0; 0] 3)
           (read_header (Sample.frame broadcast Sample.AA)) 90 90).
  - split; [reflexivity|]. cbn. unfold mappings_size. lia.
  - reflexivity.
  - reflexivity.
  - apply (bool_decide_unpack (Forall _ _)). vm_compute. exact I.
Defined.

(** X21.  On a full table that is allocated, with no time in it
    later than the second clock reading, step 1 overwrites the first
    of the slots that hold the least time: no slot holds an earlier
    time than the one overwritten, and every slot before it holds a
    later one. *)
Theorem eviction_first_oldest s a g eh current oldest :
  table_allocated s ->
  at_index (gifc s) a = Some g ->
  mappings_next_empty s = mappings_size ->
  Forall (fun m => Mapping.timeRemembered m <= oldest) (mappings s) ->
  exists v s',
    first_oldest (mappings s) v /\
    learn (Gifc a) eh current oldest s = (Done tt, s', []) /\
    mappings s' =
      <[Z.to_nat v := Mapping.mk (src eh) (Interface.ifc_num g) current]> (mappings s) /\
    mappings_next_empty s' = mappings_size.
Proof.
  intros Hs Hg Hfull Hold.
  exists (oldest_scan (mappings s) 0 oldest 0). eexists. split; [|split; [|split]].
  - apply oldest_scan_first_oldest; [|exact Hold].
    destruct Hs as [Hlen _]. intros E. rewrite E in Hlen. discriminate.
  - apply learn_run; eassumption.
  - unfold learned, learn_index. cbn [mappings].
    destruct (Z.ltb_spec (mappings_next_empty s) mappings_size); [lia|reflexivity].
  - unfold learned. cbn [mappings_next_empty].
    destruct (Z.ltb_spec (mappings_next_empty s) mappings_size); [lia|exact Hfull].
Qed.

Lemma eviction_first_oldest_witness :
  exists v s',
    first_oldest (mappings Sample.full) v /\
    learn (Gifc 2) (read_header (Sample.frame broadcast Sample.AA)) 200 200 Sample.full =
      (Done tt, s', []) /\
    mappings s' = <[Z.to_nat v := Mapping.mk Sample.AA 3 200]> (mappings Sample.full) /\
    mappings_next_empty s' = mappings_size.
Proof.
  apply (eviction_first_oldest Sample.full 2 (Interface.mk [0; 0; 0; 0; 0; 0] 3)
           (read_header (Sample.frame broadcast Sample.AA)) 200 200).
  - apply table_allocated_full.
  - reflexivity.
  - reflexivity.
  - apply (bool_decide_unpack (Forall _ _)). vm_compute. exact I.
Defined.

(** ** [maccmp] *)

Lemma memcmp_zero_iff a :
  forall b, length a = length b -> (memcmp a b = 0 <-> a = b).
Proof.
  induction a as [|x a IH]; intros [|y b] Hlen; try discriminate.
  - split; reflexivity.
  - cbn [memcmp]. injection Hlen as Hlen. destruct (Z.eqb_spec x y) as [->|Hne].
    + rewrite (IH b Hlen). split; congruence.
    + split; [lia|congruence].
Qed.

(** X16.  [maccmp] of the first version, for a slot of the table and
    the sender of the frame, both six bytes: it returns, changes
    nothing, and its value is 0 exactly when the two addresses are
    the same; a non-zero value means they differ. *)
Theorem maccmp_zero_iff_equal s eh i m :
  at_index (mappings s) i = Some m ->
  length (Mapping.mac m) = 6%nat ->
  length (src eh) = 6%nat ->
  exists c,
    maccmp eh (Mappings_mac i) Eh_src s = (Done c, s, []) /\
    (c = 0 <-> Mapping.mac m = src eh).
Proof.
  intros Hm Hl1 Hl2. eexists. split.
  - unfold maccmp. cbn [load_mac].
    erewrite bind_Done; [|erewrite bind_Done; [reflexivity|apply load_mapping_run, Hm]].
    reflexivity.
  - change (Z.to_nat sizeof_MacAddress) with 6%nat.
    rewrite !take_ge by lia. apply memcmp_zero_iff. congruence.
Qed.

Lemma maccmp_zero_iff_equal_witness :
  exists c,
    maccmp (read_header (Sample.frame Sample.BB Sample.AA)) (Mappings_mac 0) Eh_src
           (Sample.s1 Sample.AA 1 100) = (Done c, Sample.s1 Sample.AA 1 100, []) /\
    (c = 0 <-> Sample.AA = Sample.AA).
Proof.
  apply (maccmp_zero_iff_equal (Sample.s1 Sample.AA 1 100)
           (read_header (Sample.frame Sample.BB Sample.AA)) 0
           (Mapping.mk Sample.AA 1 100)).
  - reflexivity.
  - reflexivity.
  - reflexivity.
Defined.

(** ** The draft of the third source file *)

Lemma maccmp_bool (a b : MacAddress) :
  length a = 6%nat -> length b = 6%nat ->
  (memcmp (take (Z.to_nat sizeof_MacAddress) a) (take (Z.to_nat sizeof_MacAddress) b) =? 0)
  = bool_decide (a = b).
Proof.
  intros Ha Hb. change (Z.to_nat sizeof_MacAddress) with 6%nat.
  rewrite !take_ge by lia.
  pose proof (memcmp_zero_iff a b ltac:(congruence)) as H.
  destruct (Z.eqb_spec (memcmp a b) 0) as [E|E].
  - symmetry. apply bool_decide_eq_true_2, H, E.
  - symmetry. apply bool_decide_eq_false_2. intros Hab. apply E, H, Hab.
Qed.

Lemma draft_maccmp_src s eh i m :
  at_index (mappings s) i = Some m ->
  length (Mapping.mac m) = 6%nat -> length (src eh) = 6%nat ->
  Draft.maccmp eh (Mappings_mac i) Eh_src s =
    (Done (bool_decide (Mapping.mac m = src eh)), s, []).
Proof.
  intros Hm H1 H2. unfold Draft.maccmp. cbn [load_mac].
  erewrite bind_Done; [|erewrite bind_Done; [reflexivity|apply load_mapping_run, Hm]].
  erewrite bind_Done; [|reflexivity].
  rewrite maccmp_bool by assumption. reflexivity.
Qed.

Lemma draft_maccmp_dst s eh i m :
  at_index (mappings s) i = Some m ->
  length (Mapping.mac m) = 6%nat -> length (dst eh) = 6%nat ->
  Draft.maccmp eh (Mappings_mac i) Eh_dst s =
    (Done (bool_decide (Mapping.mac m = dst eh)), s, []).
Proof.
  intros Hm H1 H2. unfold Draft.maccmp. cbn [load_mac].
  erewrite bind_Done; [|erewrite bind_Done; [reflexivity|apply load_mapping_run, Hm]].
  erewrite bind_Done; [|reflexivity].
  rewrite maccmp_bool by assumption. reflexivity.
Qed.

Lemma read_header_lengths frame :
  sizeof_EthernetHeader <= Z.of_nat (length frame) ->
  length (dst (read_header frame)) = 6%nat /\ length (src (read_header frame)) = 6%nat.
Proof.
  unfold sizeof_EthernetHeader, read_header. cbn [dst src]. intros H.
  rewrite !length_take, length_drop. lia.
Qed.

Lemma draft_dst_check s eh i m :
  at_index (mappings s) i = Some m ->
  length (Mapping.mac m) = 6%nat -> length (dst eh) = 6%nat ->
  (b <- Draft.maccmp eh (Mappings_mac i) Eh_dst ;;
   if b then ret i else ret Draft.invalidIndex) s =
    (Done (if bool_decide (Mapping.mac m = dst eh) then i else Draft.invalidIndex), s, []).
Proof.
  intros Hm H1 H2. erewrite bind_Done; [|apply draft_maccmp_dst; eassumption].
  destruct (bool_decide _); reflexivity.
Qed.

(** The loop of the draft once the sender is found: it goes on to the
    first slot that holds the destination. *)
Lemma draft_scan_found s eh o sI n :
  sI <> Draft.invalidIndex ->
  length (dst eh) = 6%nat ->
  forall i j mj,
    0 <= i -> i <= j < i + Z.of_nat n ->
    others_between s (dst eh) i j ->
    at_index (mappings s) j = Some mj ->
    Mapping.mac mj = dst eh ->
    Draft.scan eh n i o sI Draft.invalidIndex s = (Done (o, sI, j), s, []).
Proof.
  intros HsI Hdst. induction n as [|n IH]; intros i j mj Hi Hj Hoth Hmj Heq; [lia|].
  cbn [Draft.scan].
  destruct (Z.eqb_spec sI Draft.invalidIndex) as [|_]; [contradiction|].
  erewrite bind_Done; [|reflexivity]. cbn [fst snd].
  change (Draft.invalidIndex =? Draft.invalidIndex) with true. cbn iota.
  destruct (Z.eq_dec i j) as [->|Hne].
  - erewrite bind_Done;
      [|apply (draft_dst_check s eh j mj Hmj); [rewrite Heq|]; exact Hdst].
    rewrite bool_decide_eq_true_2 by exact Heq.
    destruct (Z.eqb_spec sI Draft.invalidIndex) as [|_]; [contradiction|].
    destruct (Z.eqb_spec j Draft.invalidIndex) as [E|_];
      [unfold Draft.invalidIndex in E; lia|reflexivity].
  - destruct (Hoth i ltac:(lia)) as (m & Hm & Hl & Hneq).
    erewrite bind_Done; [|apply (draft_dst_check s eh i m Hm Hl Hdst)].
    rewrite bool_decide_eq_false_2 by exact Hneq.
    change (Draft.invalidIndex =? Draft.invalidIndex) with true.
    rewrite andb_false_r.
    apply (IH (i + 1) j mj); try assumption; try lia.
    intros k Hk. apply Hoth. lia.
Qed.

(** The same loop when no slot holds the destination. *)
Lemma draft_scan_absent s eh o sI n :
  sI <> Draft.invalidIndex ->
  length (dst eh) = 6%nat ->
  forall i,
    0 <= i ->
    others_between s (dst eh) i (i + Z.of_nat n) ->
    Draft.scan eh n i o sI Draft.invalidIndex s =
      (Done (o, sI, Draft.invalidIndex), s, []).
Proof.
  intros HsI Hdst. induction n as [|n IH]; intros i Hi Hoth; [reflexivity|].
  cbn [Draft.scan].
  destruct (Z.eqb_spec sI Draft.invalidIndex) as [|_]; [contradiction|].
  erewrite bind_Done; [|reflexivity]. cbn [fst snd].
  change (Draft.invalidIndex =? Draft.invalidIndex) with true. cbn iota.
  destruct (Hoth i ltac:(lia)) as (m & Hm & Hl & Hneq).
  erewrite bind_Done; [|apply (draft_dst_check s eh i m Hm Hl Hdst)].
  rewrite bool_decide_eq_false_2 by exact Hneq.
  change (Draft.invalidIndex =? Draft.invalidIndex) with true.
  rewrite andb_false_r.
  apply (IH (i + 1)); [lia|]. intros k Hk. apply Hoth. lia.
Qed.

Lemma draft_save_run s a g index m now :
  0 <= index ->
  mappings s !! Z.to_nat index = Some m ->
  at_index (gifc s) a = Some g ->
  Draft.save (Gifc a) index now s =
    (Done tt,
     mkState (num_ifc s) (gifc s)
             (<[Z.to_nat index := Mapping.mk (Mapping.mac m) (Interface.ifc_num g) now]>
                (mappings s))
             (mappings_next_empty s),
     []).
Proof.
  intros Hi Hm Hg. pose proof (lookup_lt_Some _ _ _ Hm) as Hlt. unfold Draft.save.
  erewrite bind_Done; [|apply load_ifc_num_run, Hg].
  erewrite bind_Done; [|apply store_mapping_run; eassumption].
  erewrite store_mapping_run; [|exact Hi|cbn; apply list_lookup_insert_eq; exact Hlt].
  cbn. rewrite list_insert_insert_eq. reflexivity.
Qed.

(** The first round of the loop when slot 0 holds the sender. *)
Lemma draft_scan_first s eh m0 n :
  at_index (mappings s) 0 = Some m0 ->
  Mapping.mac m0 = src eh ->
  length (src eh) = 6%nat -> length (dst eh) = 6%nat ->
  Draft.scan eh (S n) 0 Draft.invalidIndex Draft.invalidIndex Draft.invalidIndex s =
    if bool_decide (Mapping.mac m0 = dst eh)
    then (Done (Draft.invalidIndex, 0, 0), s, [])
    else Draft.scan eh n 1 Draft.invalidIndex 0 Draft.invalidIndex s.
Proof.
  intros Hm0 Hsrc Hls Hld. cbn [Draft.scan].
  change (Draft.invalidIndex =? Draft.invalidIndex) with true. cbn iota.
  erewrite bind_Done.
  2:{ erewrite bind_Done; [|apply (draft_maccmp_src s eh 0 m0 Hm0); congruence].
      rewrite bool_decide_eq_true_2 by exact Hsrc. reflexivity. }
  cbn [fst snd].
  erewrite bind_Done; [|apply (draft_dst_check s eh 0 m0 Hm0); congruence].
  destruct (bool_decide (Mapping.mac m0 = dst eh)); reflexivity.
Qed.

(** X17.  The draft reads [macToIfc[-1]] unless slot 0 holds the
    sender: for a frame with a full header whose sender is not the
    MAC of slot 0, [handle_frame] ends in the first round of the
    loop, with the table as it was and nothing written. *)
Theorem draft_sender_not_first_faults s interface frame now m0 :
  interface <= num_ifc s ->
  sizeof_EthernetHeader <= Z.of_nat (length frame) ->
  at_index (mappings s) 0 = Some m0 ->
  length (Mapping.mac m0) = 6%nat ->
  Mapping.mac m0 <> src (read_header frame) ->
  Draft.handle_frame interface frame now s = (Fault, s, []).
Proof.
  intros Hi Hfull Hm0 Hl Hne. destruct (read_header_lengths frame Hfull) as [Hld Hls].
  unfold Draft.handle_frame. erewrite bind_Done; [|reflexivity].
  destruct (Z.ltb_spec (num_ifc s) interface); [lia|]. unfold Draft.parse_frame.
  destruct (Z.ltb_spec (Z.of_nat (length frame)) sizeof_EthernetHeader); [lia|].
  apply bind_Fault. change (Z.to_nat Draft.macToIfc_size) with (S 9).
  cbn [Draft.scan]. change (Draft.invalidIndex =? Draft.invalidIndex) with true. cbn iota.
  apply bind_Fault.
  erewrite bind_Done; [|apply (draft_maccmp_src s _ 0 m0 Hm0 Hl Hls)].
  rewrite bool_decide_eq_false_2 by exact Hne.
  erewrite bind_Done; [|apply load_mapping_run, Hm0].
  apply bind_Fault, load_mapping_fault, at_index_negative. unfold Draft.invalidIndex. lia.
Qed.

Lemma draft_sender_not_first_faults_witness :
  Draft.handle_frame 2 (Sample.frame Sample.BB Sample.AA) 100 (Sample.s1 Sample.BB 3 50) =
    (Fault, Sample.s1 Sample.BB 3 50, []).
Proof.
  apply (draft_sender_not_first_faults _ 2 _ 100 (Mapping.mk Sample.BB 3 50)).
  - change (2 <= 3). lia.
  - vm_compute. discriminate.
  - reflexivity.
  - reflexivity.
  - vm_compute. discriminate.
Defined.

(** X18.  The draft with the sender in slot 0 and the destination
    first held by slot [j]: slot 0 takes the number of the arrival
    interface and the time, its MAC as before; one message with the
    frame goes to the interface number slot [j] then holds, and no
    test keeps it from being the arrival interface (for [j = 0], a
    frame to its own sender, it is). *)
Theorem draft_known_destination s interface g frame now m0 j mj :
  interface <= num_ifc s ->
  at_index (gifc s) (interface - 1) = Some g ->
  sizeof_EthernetHeader <= Z.of_nat (length frame) ->
  at_index (mappings s) 0 = Some m0 ->
  Mapping.mac m0 = src (read_header frame) ->
  0 <= j < Draft.macToIfc_size ->
  others_between s (dst (read_header frame)) 0 j ->
  at_index (mappings s) j = Some mj ->
  Mapping.mac mj = dst (read_header frame) ->
  Draft.handle_frame interface frame now s =
    (Done tt,
     mkState (num_ifc s) (gifc s)
             (<[0%nat := Mapping.mk (Mapping.mac m0) (Interface.ifc_num g) now]> (mappings s))
             (mappings_next_empty s),
     [message frame (if j =? 0 then Interface.ifc_num g else Mapping.ifc_num mj)]).
Proof.
  intros Hi Hg Hfull Hm0 Hsrc Hj Hoth Hmj Hdst.
  destruct (read_header_lengths frame Hfull) as [Hld Hls].
  pose proof (proj1 (at_index_Some _ _ _) Hm0) as [_ Hm0'].
  pose proof (proj1 (at_index_Some _ _ _) Hmj) as [_ Hmj'].
  unfold Draft.handle_frame. erewrite bind_Done; [|reflexivity].
  destruct (Z.ltb_spec (num_ifc s) interface); [lia|]. unfold Draft.parse_frame.
  destruct (Z.ltb_spec (Z.of_nat (length frame)) sizeof_EthernetHeader); [lia|].
  assert (Hscan : Draft.scan (read_header frame) (Z.to_nat Draft.macToIfc_size) 0
                    Draft.invalidIndex Draft.invalidIndex Draft.invalidIndex s =
                  (Done (Draft.invalidIndex, 0, j), s, [])).
  { change (Z.to_nat Draft.macToIfc_size) with (S 9).
    rewrite (draft_scan_first s _ m0 9 Hm0 Hsrc Hls Hld).
    destruct (Z.eq_dec j 0) as [->|Hnz].
    - rewrite Hmj in Hm0. injection Hm0 as ->.
      rewrite bool_decide_eq_true_2 by exact Hdst. reflexivity.
    - destruct (Hoth 0 ltac:(lia)) as (m & Hm & _ & Hne).
      rewrite Hm0 in Hm. injection Hm as <-.
      rewrite bool_decide_eq_false_2 by exact Hne.
      apply (draft_scan_found s _ Draft.invalidIndex 0 9 ltac:(discriminate) Hld 1 j mj);
        try assumption; try (unfold Draft.macToIfc_size in Hj; lia).
      intros k Hk. apply Hoth. lia. }
  erewrite bind_Done; [|exact Hscan]. cbn [fst snd].
  change (negb (0 =? Draft.invalidIndex)) with true. cbn iota.
  erewrite bind_Done; [|apply (draft_save_run s (interface - 1) g 0 m0 now); auto; lia].
  destruct (Z.eqb_spec j Draft.invalidIndex) as [E|_];
    [unfold Draft.invalidIndex in E; lia|]. cbn [negb].
  unfold Draft.forward_to_slot.
  destruct (Z.eqb_spec j 0) as [->|Hnz].
  - erewrite bind_Done; cycle 1.
    { apply load_mapping_run. cbn [mappings].
      apply (proj2 (at_index_Some _ 0
                      (Mapping.mk (Mapping.mac m0) (Interface.ifc_num g) now))).
      split; [lia|].
      apply list_lookup_insert_eq. apply lookup_lt_Some in Hm0'. exact Hm0'. }
    reflexivity.
  - erewrite bind_Done; cycle 1.
    { apply load_mapping_run. cbn [mappings].
      apply (proj2 (at_index_Some _ j mj)). split; [lia|].
      rewrite list_lookup_insert_ne by lia. exact Hmj'. }
    reflexivity.
Qed.

Lemma others_between_Forall s mac n :
  (n <= length (mappings s))%nat ->
  Forall (fun m => length (Mapping.mac m) = 6%nat /\ Mapping.mac m <> mac)
         (take n (mappings s)) ->
  others_between s mac 0 (Z.of_nat n).
Proof.
  intros Hn HF k Hk.
  destruct (lookup_lt_is_Some_2 (mappings s) (Z.to_nat k)) as [m Hm]; [lia|].
  exists m. split; [apply at_index_Some; split; [lia|exact Hm]|].
  rewrite Forall_forall in HF. apply HF.
  apply (list_elem_of_lookup_2 _ (Z.to_nat k)). rewrite lookup_take_lt by lia. exact Hm.
Qed.

Lemma draft_known_destination_witness :
  Draft.handle_frame 3 (Sample.frame Sample.BB Sample.AA) 200 Sample.s2 =
    (Done tt,
     mkState 3 (gifc Sample.s0)
             (Mapping.mk Sample.AA 3 200 :: Mapping.mk Sample.BB 3 50
                :: replicate 8 Sample.free_slot) 2,
     [message (Sample.frame Sample.BB Sample.AA) 3]).
Proof.
  apply (draft_known_destination Sample.s2 3 (Interface.mk [0; 0; 0; 0; 0; 0] 3)
           (Sample.frame Sample.BB Sample.AA) 200
           (Mapping.mk Sample.AA 1 100) 1 (Mapping.mk Sample.BB 3 50)).
  - change (3 <= 3). lia.
  - reflexivity.
  - vm_compute. discriminate.
  - reflexivity.
  - reflexivity.
  - unfold Draft.macToIfc_size. lia.
  - apply (others_between_Forall Sample.s2 _ 1); [cbn; lia|].
    apply (bool_decide_unpack (Forall _ _)). vm_compute. exact I.
  - reflexivity.
  - reflexivity.
Defined.

(** X19.  The draft with the sender in slot 0 and the destination in
    none of the ten slots: slot 0 takes the number of the arrival
    interface and the time, and the frame goes to every other
    interface, one message each, by increasing number. *)
Theorem draft_unknown_destination s interface frame now m0 :
  interfaces_numbered s ->
  1 <= interface <= num_ifc s ->
  sizeof_EthernetHeader <= Z.of_nat (length frame) ->
  at_index (mappings s) 0 = Some m0 ->
  Mapping.mac m0 = src (read_header frame) ->
  others_between s (dst (read_header frame)) 0 Draft.macToIfc_size ->
  Draft.handle_frame interface frame now s =
    (Done tt,
     mkState (num_ifc s) (gifc s)
             (<[0%nat := Mapping.mk (Mapping.mac m0) interface now]> (mappings s))
             (mappings_next_empty s),
     map (message frame) (targets s interface)).
Proof.
  intros Hs Hi Hfull Hm0 Hsrc Hoth.
  destruct (read_header_lengths frame Hfull) as [Hld Hls].
  pose proof (proj1 (at_index_Some _ _ _) Hm0) as [_ Hm0'].
  destruct (at_index_in_range (gifc s) (interface - 1)) as [g Hg];
    [destruct Hs as (Hl & _); lia|].
  assert (Hk : Interface.ifc_num g = interface).
  { destruct Hs as (_ & _ & Hnum). apply at_index_Some in Hg as [? Hg].
    rewrite (Hnum _ _ Hg). lia. }
  unfold Draft.handle_frame. erewrite bind_Done; [|reflexivity].
  destruct (Z.ltb_spec (num_ifc s) interface); [lia|]. unfold Draft.parse_frame.
  destruct (Z.ltb_spec (Z.of_nat (length frame)) sizeof_EthernetHeader); [lia|].
  assert (Hscan : Draft.scan (read_header frame) (Z.to_nat Draft.macToIfc_size) 0
                    Draft.invalidIndex Draft.invalidIndex Draft.invalidIndex s =
                  (Done (Draft.invalidIndex, 0, Draft.invalidIndex), s, [])).
  { change (Z.to_nat Draft.macToIfc_size) with (S 9).
    rewrite (draft_scan_first s _ m0 9 Hm0 Hsrc Hls Hld).
    destruct (Hoth 0 ltac:(unfold Draft.macToIfc_size; lia)) as (m & Hm & _ & Hne).
    rewrite Hm0 in Hm. injection Hm as <-.
    rewrite bool_decide_eq_false_2 by exact Hne.
    apply (draft_scan_absent s _ Draft.invalidIndex 0 9 ltac:(discriminate) Hld 1); [lia|].
    intros k Hk'. apply Hoth. unfold Draft.macToIfc_size. lia. }
  erewrite bind_Done; [|exact Hscan]. cbn [fst snd].
  change (negb (0 =? Draft.invalidIndex)) with true.
  change (negb (Draft.invalidIndex =? Draft.invalidIndex)) with false. cbn iota.
  erewrite bind_Done; [|apply (draft_save_run s (interface - 1) g 0 m0 now); auto; lia].
  rewrite Hk. unfold flood. erewrite bind_Done; [|reflexivity]. cbn [num_ifc].
  rewrite (flood_loop_run _ (interface - 1) frame) by (exact Hs || (cbn; lia)).
  unfold targets. cbn [num_ifc]. rewrite Z2Nat.id by lia.
  replace (interface - 1 + 1) with interface by lia. reflexivity.
Qed.

Lemma draft_unknown_destination_witness :
  Draft.handle_frame 2 (Sample.frame broadcast Sample.AA) 200 Sample.s2 =
    (Done tt,
     mkState 3 (gifc Sample.s0)
             (Mapping.mk Sample.AA 2 200 :: Mapping.mk Sample.BB 3 50
                :: replicate 8 Sample.free_slot) 2,
     [message (Sample.frame broadcast Sample.AA) 1;
      message (Sample.frame broadcast Sample.AA) 3]).
Proof.
  apply (draft_unknown_destination Sample.s2 2 (Sample.frame broadcast Sample.AA) 200
           (Mapping.mk Sample.AA 1 100)).
  - apply interfaces_numbered_s0.
  - change (1 <= 2 <= 3). lia.
  - vm_compute. discriminate.
  - reflexivity.
  - reflexivity.
  - apply (others_between_Forall Sample.s2 _ 10); [cbn; lia|].
    apply (bool_decide_unpack (Forall _ _)). vm_compute. exact I.
Defined.

Lemma same_keys_refl s : same_keys s s.
Proof. repeat split. Qed.

Lemma same_keys_trans s1 s2 s3 : same_keys s1 s2 -> same_keys s2 s3 -> same_keys s1 s3.
Proof. unfold same_keys, same_interfaces. intros H1 H2. intuition congruence. Qed.

Lemma store_mapping_same_keys i f :
  (forall m, Mapping.mac (f m) = Mapping.mac m) -> keeps same_keys (store_mapping i f).
Proof.
  intros Hf s. unfold store_mapping, bind, get, load.
  destruct (at_index (mappings s) i) as [m|] eqn:Hm; cbn; [|apply same_keys_refl].
  unfold set_index.
  destruct ((0 <=? i) && (i <? Z.of_nat (length (mappings s)))); cbn;
    [|apply same_keys_refl].
  split; [split; reflexivity|].
  apply at_index_Some in Hm as [_ Hm].
  change (Mapping.mac <$> <[Z.to_nat i := f m]> (mappings s) = Mapping.mac <$> mappings s).
  rewrite list_fmap_insert. apply list_insert_id.
  rewrite list_lookup_fmap, Hm, Hf. reflexivity.
Qed.

(** X20.  The draft never stores a MAC: whatever the interface number,
    the frame and the clock, and however [handle_frame] ends, every
    slot of the table holds the MAC it held before, and the interfaces
    are unchanged. *)
Theorem draft_keeps_keys s interface frame now :
  same_keys s (Draft.handle_frame interface frame now s).1.2.
Proof.
  apply (keeps_draft_handle_frame same_keys same_keys_refl same_keys_trans).
  apply store_mapping_same_keys.
Qed.
